(** * picmo: the popup picker controller, the picker options and the
    variant popup navigation, as a shallow embedding in Rocq.

    The controller ([src/unnamed/part_001], class [PopupPickerController])
    is modelled as a world made of the controller's fields together with
    the pending continuations of its async methods ([open], [close],
    [destroy]): each [await] splits a method into segments, a segment runs
    atomically once every animation it awaits has finished, and the
    browser (animations finishing, other animations starting on the picker
    element) is an environment that may act between segments. *)

From stdpp Require Import base list gmap strings.
From Stdlib Require Import ZArith Lia.



(** ** DOM nodes *)

(** A node of the document, identified by its path of child indices from
    the document root: the node [n ++ p] lies in the subtree of [n]. *)
Definition Node := list nat.

(** [Node.contains(other)]: [other] is [n] itself or one of its
    descendants. *)
Fixpoint contains (n other : Node) : bool :=
  match n, other with
  | [], _ => true
  | x :: n', y :: o' => Nat.eqb x y && contains n' o'
  | _ :: _, [] => false
  end.

(** A [MouseEvent] dispatched on the document: its target node, and the
    answer of [this.picker.isPickerClick(event)] for it. *)
Record MouseEvent := mkMouseEvent {
  target : Node;
  pickerClick : bool
}.

(** ** Animations on the picker element *)

(** The [id] given to [animate]: ['show-picker'], ['hide-picker'], or an
    animation on [picker.el] that the controller did not start. *)
Inductive AnimName := ShowPicker | HidePicker | OtherAnimation.

Record Animation := mkAnimation {
  anim_id : nat;
  anim_name : AnimName
}.

(** ** Controller state *)

(** The fields of a [PopupPickerController] that the claims observe.
    - [popupAttached]: [popupEl] is a child of [rootElement];
    - [runningAnimations]: the animations of [picker.el] whose [playState]
      is ['running'];
    - [positionCleanup]: the installation released by
      [this.positionCleanup], [None] while it is [undefined];
    - [activePositioning]: the positioning installations not yet released;
    - [externalListeners]: the callbacks of [this.externalEvents];
    - [emitted], [invokedCallbacks]: the [externalEvents.emit] calls made,
      and the callbacks they ran;
    - [clickListenerAttached]: [onDocumentClick] is a ['click'] listener of
      [document];
    - [nextId]: source of fresh identities for animations and positioning
      installations. *)
Record Controller := mkController {
  isOpen : bool;
  popupAttached : bool;
  triggerElement : option Node;
  runningAnimations : list Animation;
  positionCleanup : option nat;
  activePositioning : list nat;
  externalListeners : list (string * nat);
  emitted : list string;
  invokedCallbacks : list nat;
  clickListenerAttached : bool;
  pickerDestroyed : bool;
  nextId : nat
}.

Definition set_isOpen (b : bool) (c : Controller) : Controller :=
  {| isOpen := b; popupAttached := popupAttached c;
     triggerElement := triggerElement c;
     runningAnimations := runningAnimations c;
     positionCleanup := positionCleanup c;
     activePositioning := activePositioning c;
     externalListeners := externalListeners c; emitted := emitted c;
     invokedCallbacks := invokedCallbacks c;
     clickListenerAttached := clickListenerAttached c;
     pickerDestroyed := pickerDestroyed c; nextId := nextId c |}.

Definition set_popupAttached (b : bool) (c : Controller) : Controller :=
  {| isOpen := isOpen c; popupAttached := b;
     triggerElement := triggerElement c;
     runningAnimations := runningAnimations c;
     positionCleanup := positionCleanup c;
     activePositioning := activePositioning c;
     externalListeners := externalListeners c; emitted := emitted c;
     invokedCallbacks := invokedCallbacks c;
     clickListenerAttached := clickListenerAttached c;
     pickerDestroyed := pickerDestroyed c; nextId := nextId c |}.

Definition set_animations (anims : list Animation) (next : nat)
    (c : Controller) : Controller :=
  {| isOpen := isOpen c; popupAttached := popupAttached c;
     triggerElement := triggerElement c;
     runningAnimations := anims;
     positionCleanup := positionCleanup c;
     activePositioning := activePositioning c;
     externalListeners := externalListeners c; emitted := emitted c;
     invokedCallbacks := invokedCallbacks c;
     clickListenerAttached := clickListenerAttached c;
     pickerDestroyed := pickerDestroyed c; nextId := next |}.

Definition set_positioning (cleanup : option nat) (active : list nat)
    (next : nat) (c : Controller) : Controller :=
  {| isOpen := isOpen c; popupAttached := popupAttached c;
     triggerElement := triggerElement c;
     runningAnimations := runningAnimations c;
     positionCleanup := cleanup;
     activePositioning := active;
     externalListeners := externalListeners c; emitted := emitted c;
     invokedCallbacks := invokedCallbacks c;
     clickListenerAttached := clickListenerAttached c;
     pickerDestroyed := pickerDestroyed c; nextId := next |}.

Definition set_events (listeners : list (string * nat)) (ems : list string)
    (invoked : list nat) (c : Controller) : Controller :=
  {| isOpen := isOpen c; popupAttached := popupAttached c;
     triggerElement := triggerElement c;
     runningAnimations := runningAnimations c;
     positionCleanup := positionCleanup c;
     activePositioning := activePositioning c;
     externalListeners := listeners; emitted := ems;
     invokedCallbacks := invokedCallbacks c ++ invoked;
     clickListenerAttached := clickListenerAttached c;
     pickerDestroyed := pickerDestroyed c; nextId := nextId c |}.

Definition set_destroyed (c : Controller) : Controller :=
  {| isOpen := isOpen c; popupAttached := popupAttached c;
     triggerElement := triggerElement c;
     runningAnimations := runningAnimations c;
     positionCleanup := positionCleanup c;
     activePositioning := activePositioning c;
     externalListeners := externalListeners c; emitted := emitted c;
     invokedCallbacks := invokedCallbacks c;
     clickListenerAttached := false;
     pickerDestroyed := true; nextId := nextId c |}.

(** ** Synchronous helpers of the controller *)

(** [getRunningAnimations().map(a => a.finished)]: the animations a call of
    [awaitPendingAnimations] waits for. *)
Definition runningIds (c : Controller) : list nat :=
  map anim_id (runningAnimations c).

(** [this.picker.el.animate(..., { id })]: a new running animation; the
    returned id is the animation whose [finished] promise is awaited. *)
Definition animate (name : AnimName) (c : Controller) : Controller * nat :=
  let a := nextId c in
  (set_animations (runningAnimations c ++ [mkAnimation a name]) (S a) c, a).

(** Calling the cleanup function of installation [p] returned by
    [positioning.setPosition]: the installation stops being active (calling
    it again has no further effect). *)
Definition releasePosition (p : nat) (c : Controller) : Controller :=
  set_positioning (positionCleanup c)
    (List.filter (fun q => negb (Nat.eqb q p)) (activePositioning c))
    (nextId c) c.

(** [PopupPickerController.setPosition]:
    [this.positionCleanup?.(); this.positionCleanup = setPosition(...)]. *)
Definition setPosition (c : Controller) : Controller :=
  let c1 := match positionCleanup c with
            | Some p => releasePosition p c
            | None => c
            end in
  let p := nextId c1 in
  set_positioning (Some p) (p :: activePositioning c1) (S p) c1.

(** [this.externalEvents.emit(event)]. The class [ExternalEvents] is not
    part of the sources: the model records every [emit] call the
    controller makes in [emitted] (that part is the controller's code) and
    assumes only that [emit] runs callbacks registered with [on] for that
    event and not removed by [removeAll()]. The order and multiplicity used
    here (each registration once, in registration order) are a choice of
    the model that no property below depends on. *)
Definition emit (event : string) (c : Controller) : Controller :=
  set_events (externalListeners c) (emitted c ++ [event])
    (map snd (List.filter (fun l => String.eqb l.1 event) (externalListeners c))) c.

(** The statements of [destroy] after the optional close:
    [document.removeEventListener('click', ...)], [this.picker.destroy()],
    [this.externalEvents.removeAll()]. *)
Definition destroyRest (c : Controller) : Controller :=
  let c1 := set_destroyed c in
  set_events [] (emitted c1) [] c1.

(** [initiateOpenStateChange(openState)], its synchronous part: the new
    state is recorded, then the running animations are collected for
    [awaitPendingAnimations]. *)
Definition initiateOpenStateChange (openState : bool) (c : Controller)
    : Controller * list nat :=
  let c1 := set_isOpen openState c in
  (c1, runningIds c1).

(** ** Pending continuations of the async methods *)

(** What follows the end of a [close()]: return to its caller, or the rest
    of the [destroy()] that awaited it. *)
Inductive AfterClose := ReturnToCaller | ContinueDestroy.

(** Where a suspended call resumes:
    - [OpenAfterPending]: [open] after [await initiateOpenStateChange(true)];
    - [OpenAfterShow]: [open] after [await animateOpenStateChange(true)];
    - [CloseAfterPending k], [CloseAfterHide k]: the same points of
      [close]. *)
Inductive Pc :=
  | OpenAfterPending
  | OpenAfterShow
  | CloseAfterPending (k : AfterClose)
  | CloseAfterHide (k : AfterClose).

(** A suspended call and the animations whose [finished] it awaits. *)
Record Task := mkTask {
  pc : Pc;
  awaiting : list nat
}.

Record World := mkWorld {
  ctrl : Controller;
  tasks : list Task
}.

(** A task can resume once none of the animations it awaits is running. *)
Definition task_ready (c : Controller) (t : Task) : bool :=
  forallb (fun a => negb (existsb (Nat.eqb a) (runningIds c))) (awaiting t).

(** Runs a suspended call up to its next [await] (the task that then
    waits) or to its end ([None]). *)
Definition resume (c : Controller) (p : Pc) : Controller * option Task :=
  match p with
  | OpenAfterPending =>
      (* this.rootElement.appendChild(this.popupEl); this.setPosition();
         this.picker.initializePickerView();
         await this.animateOpenStateChange(true) *)
      let c1 := setPosition (set_popupAttached true c) in
      let '(c2, a) := animate ShowPicker c1 in
      (c2, Some (mkTask OpenAfterShow [a]))
  | OpenAfterShow =>
      (* initializePickerView(); setInitialFocus();
         this.externalEvents.emit('picker:open') *)
      (emit "picker:open"%string c, None)
  | CloseAfterPending k =>
      (* await this.animateOpenStateChange(false) *)
      let '(c1, a) := animate HidePicker c in
      (c1, Some (mkTask (CloseAfterHide k) [a]))
  | CloseAfterHide k =>
      (* this.popupEl.remove(); this.picker.reset(); this.positionCleanup() *)
      let c1 := set_popupAttached false c in
      match positionCleanup c1 with
      | Some p =>
          let c2 := releasePosition p c1 in
          (match k with
           | ReturnToCaller => c2
           | ContinueDestroy => destroyRest c2
           end, None)
      | None =>
          (* [this.positionCleanup] is undefined: the call throws, the
             promise of [close()] rejects, and so does an awaiting
             [destroy()], whose remaining statements do not run *)
          (c1, None)
      end
  end.

(** The task list after task [i] resumed. *)
Definition after_resume (i : nat) (next : option Task) (ts : list Task)
    : list Task :=
  match next with
  | Some t => <[i := t]> ts
  | None => delete i ts
  end.

(** ** The public methods, up to their first [await] *)

Definition open (w : World) : World :=
  if isOpen (ctrl w) then w
  else
    let '(c, pending) := initiateOpenStateChange true (ctrl w) in
    mkWorld c (tasks w ++ [mkTask OpenAfterPending pending]).

Definition close_then (k : AfterClose) (w : World) : World :=
  if negb (isOpen (ctrl w)) then w
  else
    let '(c, pending) := initiateOpenStateChange false (ctrl w) in
    mkWorld c (tasks w ++ [mkTask (CloseAfterPending k) pending]).

Definition close (w : World) : World := close_then ReturnToCaller w.

Definition toggle (w : World) : World :=
  if isOpen (ctrl w) then close w else open w.

(** [destroy]: [if (this.isOpen) await this.close();] then the rest. *)
Definition destroy (w : World) : World :=
  if isOpen (ctrl w) then close_then ContinueDestroy w
  else mkWorld (destroyRest (ctrl w)) (tasks w).

(** [on(event, callback)]: the [externalEvents] part. The callback is also
    handed to [this.picker.on]; [EmojiPicker] is not part of the sources,
    and its callbacks are not tracked ([pickerDestroyed] records the
    [this.picker.destroy()] that ends them). *)
Definition on (event : string) (callback : nat) (w : World) : World :=
  let c := ctrl w in
  mkWorld (set_events (externalListeners c ++ [(event, callback)])
             (emitted c) [] c) (tasks w).

(** [handleKeydown], the ['keydown'] listener of [popupEl]. *)
Definition handleKeydown (key : string) (w : World) : World :=
  if String.eqb key "Escape"%string then close w else w.

(** [this.options.triggerElement?.contains(clickedNode)], [undefined] read
    as false. *)
Definition isClickOnTrigger (c : Controller) (ev : MouseEvent) : bool :=
  match triggerElement c with
  | Some t => contains t (target ev)
  | None => false
  end.

(** The condition of [onDocumentClick]. *)
Definition closesOnClick (c : Controller) (ev : MouseEvent) : bool :=
  isOpen c && negb (pickerClick ev) && negb (isClickOnTrigger c ev).

Definition onDocumentClick (ev : MouseEvent) (w : World) : World :=
  if closesOnClick (ctrl w) ev then close w else w.

(** A click dispatched on [document]: it reaches [onDocumentClick] while
    that listener is registered. *)
Definition dispatchDocumentClick (ev : MouseEvent) (w : World) : World :=
  if clickListenerAttached (ctrl w) then onDocumentClick ev w else w.

(** The [constructor]: a closed picker, the click listener registered. *)
Definition initController (trigger : option Node) : Controller :=
  {| isOpen := false; popupAttached := false; triggerElement := trigger;
     runningAnimations := []; positionCleanup := None;
     activePositioning := []; externalListeners := []; emitted := [];
     invokedCallbacks := []; clickListenerAttached := true;
     pickerDestroyed := false; nextId := 0 |}.

Definition initWorld (trigger : option Node) : World :=
  mkWorld (initController trigger) [].

(** ** Steps *)

(** The browser between two segments: a suspended call whose awaited
    animations have all finished resumes; a running animation finishes; an
    animation the controller did not start begins on [picker.el]. An
    animation that is paused or never ends is one that never takes the
    [env_finish] step; a cancelled animation, whose [finished] promise
    rejects and makes the awaiting call reject, is not modelled. *)
Definition finishAnimation (a : nat) (c : Controller) : Controller :=
  set_animations
    (List.filter (fun x => negb (Nat.eqb (anim_id x) a)) (runningAnimations c))
    (nextId c) c.

Definition startOtherAnimation (c : Controller) : Controller :=
  fst (animate OtherAnimation c).

Inductive env_step : World -> World -> Prop :=
  | env_resume w i t c' next :
      tasks w !! i = Some t ->
      task_ready (ctrl w) t = true ->
      resume (ctrl w) (pc t) = (c', next) ->
      env_step w (mkWorld c' (after_resume i next (tasks w)))
  | env_finish w a :
      In a (runningIds (ctrl w)) ->
      env_step w (mkWorld (finishAnimation a (ctrl w)) (tasks w))
  | env_other w :
      env_step w (mkWorld (startOtherAnimation (ctrl w)) (tasks w)).

(** What a page can do to the controller synchronously. *)
Inductive Call :=
  | COpen | CClose | CToggle | CDestroy
  | COn (event : string) (callback : nat)
  | CClick (ev : MouseEvent)
  | CKeydown (key : string).

Definition perform (call : Call) (w : World) : World :=
  match call with
  | COpen => open w
  | CClose => close w
  | CToggle => toggle w
  | CDestroy => destroy w
  | COn e cb => on e cb w
  | CClick ev => dispatchDocumentClick ev w
  | CKeydown key => handleKeydown key w
  end.

Inductive step : World -> World -> Prop :=
  | step_env w w' : env_step w w' -> step w w'
  | step_call w call : step w (perform call w).

(** The worlds reachable from a freshly constructed controller, with calls
    and browser steps interleaved in any order. *)
Definition reachable (w : World) : Prop :=
  exists trigger, rtc step (initWorld trigger) w.

(** Sequential use: every call runs to its end (its promise settles)
    before the next call is made; the browser may act meanwhile. *)
Inductive seq_reachable : World -> Prop :=
  | seq_init trigger : seq_reachable (initWorld trigger)
  | seq_call w call w' :
      seq_reachable w ->
      rtc env_step (perform call w) w' ->
      tasks w' = [] ->
      seq_reachable w'.

(** ** Calls resume in the order they were made

    [env_step] lets the suspended calls resume in any order once their
    animations have finished. In the browser the first segments of the
    calls run in the order of the calls: a later call awaits every
    animation that is running when it is made, which includes each
    animation an earlier, still suspended call is waiting for; and when the
    same [finished] promise settles both waits, the continuations run in
    the order they were registered. [fifo_env_step] is [env_step] with that
    constraint: a call still before its first resumption ([is_pending])
    resumes only when no older call is before its first resumption. The
    list of tasks is in the order of the calls: calls append, and a
    resumption replaces or removes its own task. *)

Definition is_pending (t : Task) : bool :=
  match pc t with
  | OpenAfterPending | CloseAfterPending _ => true
  | OpenAfterShow | CloseAfterHide _ => false
  end.

Definition fifo_ok (ts : list Task) (i : nat) (t : Task) : bool :=
  negb (is_pending t) || forallb (fun u => negb (is_pending u)) (take i ts).

(** A call that will close the picker, and a call at the first [await] of
    [open()]. *)
Definition is_close (t : Task) : bool :=
  match pc t with
  | CloseAfterPending _ | CloseAfterHide _ => true
  | OpenAfterPending | OpenAfterShow => false
  end.

Definition opens_pc (t : Task) : bool :=
  match pc t with
  | OpenAfterPending => true
  | _ => false
  end.

(** The calls still before their first resumption, in call order. *)
Definition pending_calls (ts : list Task) : list Task := List.filter is_pending ts.

Inductive fifo_env_step : World -> World -> Prop :=
  | fifo_resume w i t c' next :
      tasks w !! i = Some t ->
      task_ready (ctrl w) t = true ->
      fifo_ok (tasks w) i t = true ->
      resume (ctrl w) (pc t) = (c', next) ->
      fifo_env_step w (mkWorld c' (after_resume i next (tasks w)))
  | fifo_finish w a :
      In a (runningIds (ctrl w)) ->
      fifo_env_step w (mkWorld (finishAnimation a (ctrl w)) (tasks w))
  | fifo_other w :
      fifo_env_step w (mkWorld (startOtherAnimation (ctrl w)) (tasks w)).

Inductive fifo_step : World -> World -> Prop :=
  | fifo_step_env w w' : fifo_env_step w w' -> fifo_step w w'
  | fifo_step_call w call : fifo_step w (perform call w).

(** The worlds reachable from a freshly constructed controller, with calls
    and browser steps interleaved in any order the browser allows. *)
Definition fifo_reachable (w : World) : Prop :=
  exists trigger, rtc fifo_step (initWorld trigger) w.

(** ** An executable scheduler, to replay given interleavings *)

Inductive Action :=
  | ACall (call : Call)
  | AResume (i : nat)
  | AFinish (a : nat)
  | AOther.

Definition act (x : Action) (w : World) : option World :=
  match x with
  | ACall call => Some (perform call w)
  | AResume i =>
      match tasks w !! i with
      | Some t =>
          if task_ready (ctrl w) t then
            let '(c', next) := resume (ctrl w) (pc t) in
            Some (mkWorld c' (after_resume i next (tasks w)))
          else None
      | None => None
      end
  | AFinish a =>
      if existsb (Nat.eqb a) (runningIds (ctrl w))
      then Some (mkWorld (finishAnimation a (ctrl w)) (tasks w))
      else None
  | AOther => Some (mkWorld (startOtherAnimation (ctrl w)) (tasks w))
  end.

Fixpoint exec (xs : list Action) (w : World) : option World :=
  match xs with
  | [] => Some w
  | x :: xs' => match act x w with Some w' => exec xs' w' | None => None end
  end.

(** [act] with the call-order constraint of [fifo_env_step]. *)
Definition fifo_act (x : Action) (w : World) : option World :=
  match x with
  | AResume i =>
      match tasks w !! i with
      | Some t => if fifo_ok (tasks w) i t then act x w else None
      | None => None
      end
  | _ => act x w
  end.

Fixpoint fifo_exec (xs : list Action) (w : World) : option World :=
  match xs with
  | [] => Some w
  | x :: xs' => match fifo_act x w with Some w' => fifo_exec xs' w' | None => None end
  end.

(** Following one suspended call through a schedule of browser steps:
    [follow_task xs w j] is the index that the call at index [j] of the
    tasks of [w] has after the steps [xs], or [None] once it has run to its
    end. *)
Definition follow_step (x : Action) (w : World) (j : nat) : option nat :=
  match x with
  | AResume i =>
      match tasks w !! i with
      | Some t =>
          match snd (resume (ctrl w) (pc t)) with
          | Some _ => Some j
          | None =>
              if Nat.eqb i j then None
              else if Nat.ltb i j then Some (j - 1) else Some j
          end
      | None => Some j
      end
  | _ => Some j
  end.

Fixpoint follow_task (xs : list Action) (w : World) (j : nat) : option nat :=
  match xs with
  | [] => Some j
  | x :: xs' =>
      match fifo_act x w with
      | Some w1 =>
          match follow_step x w j with
          | Some j1 => follow_task xs' w1 j1
          | None => None
          end
      | None => Some j
      end
  end.

(** ** Two concrete sequential runs *)

(** [open()] on a fresh controller, run to its end: the call resumes, its
    ['show-picker'] animation (id 1) finishes, and it resumes again. *)
Definition opened_world : World :=
  default (initWorld None)
    (exec [AResume 0; AFinish 1; AResume 0] (open (initWorld None))).

(** [destroy()] on [opened_world], run to its end (the ['hide-picker']
    animation has id 2). *)
Definition destroyed_world : World :=
  default opened_world
    (exec [AResume 0; AFinish 2; AResume 0] (destroy opened_world)).

(** ** Concrete runs with overlapping calls or animations *)

(** An animation the controller did not start (id 0) runs on a fresh
    picker; [open()] is called, that animation finishes, and the call
    resumes, starting ['show-picker'] (id 2). *)
Definition busy_world : World :=
  default (initWorld None) (exec [AOther] (initWorld None)).

Definition busy_ready : World :=
  default busy_world (exec [AFinish 0] (open busy_world)).

Definition busy_started : World :=
  default busy_world (exec [AResume 0] busy_ready).


(** [open(); destroy();] in one tick on a fresh controller, run in call
    order: [open()] attaches the popup and starts ['show-picker'] (id 1),
    the [close()] of [destroy()] starts ['hide-picker'] (id 2); the hide
    animation finishes and [destroy()] completes; then [open()] ends. *)
Definition open_destroy_world : World :=
  default (initWorld None)
    (fifo_exec [AResume 0; AResume 1; AFinish 2; AResume 1; AFinish 1; AResume 0]
       (destroy (open (initWorld None)))).

(** * Properties *)

(** ** Observable fields, and what the browser steps leave unchanged *)

Definition obs (c : Controller) :=
  (isOpen c, popupAttached c, triggerElement c, positionCleanup c,
   activePositioning c, externalListeners c, emitted c, invokedCallbacks c,
   clickListenerAttached c, pickerDestroyed c).

Definition maybe_task (next : option Task) : list Task :=
  match next with Some t => [t] | None => [] end.

Lemma obs_finishAnimation a c : obs (finishAnimation a c) = obs c.
Proof. reflexivity. Qed.

Lemma obs_startOtherAnimation c : obs (startOtherAnimation c) = obs c.
Proof. reflexivity. Qed.

Lemma setPosition_fields c :
  isOpen (setPosition c) = isOpen c /\
  popupAttached (setPosition c) = popupAttached c /\
  emitted (setPosition c) = emitted c /\
  externalListeners (setPosition c) = externalListeners c /\
  clickListenerAttached (setPosition c) = clickListenerAttached c /\
  pickerDestroyed (setPosition c) = pickerDestroyed c /\
  positionCleanup (setPosition c) = Some (nextId c) /\
  activePositioning (setPosition c) =
    nextId c :: match positionCleanup c with
                | Some p => List.filter (fun q => negb (Nat.eqb q p))
                              (activePositioning c)
                | None => activePositioning c
                end.
Proof. unfold setPosition; destruct (positionCleanup c); repeat split. Qed.

Lemma env_step_no_tasks w w' :
  tasks w = [] -> env_step w w' ->
  tasks w' = [] /\ obs (ctrl w') = obs (ctrl w).
Proof.
  intros Ht Hs; destruct Hs as [w i t c' next Hi _ _|w a _|w]; simpl.
  - rewrite Ht in Hi; destruct i; discriminate.
  - auto.
  - auto.
Qed.

Lemma env_step_one_task w w' t :
  tasks w = [t] -> env_step w w' ->
  (tasks w' = [t] /\ obs (ctrl w') = obs (ctrl w)) \/
  (task_ready (ctrl w) t = true /\
   exists next, resume (ctrl w) (pc t) = (ctrl w', next) /\
                tasks w' = maybe_task next).
Proof.
  intros Ht Hs; destruct Hs as [w i t' c' next Hi Hr He|w a _|w]; simpl.
  - right. rewrite Ht in Hi |- *.
    destruct i as [|i]; [|destruct i; discriminate].
    simpl in Hi; injection Hi as <-.
    split; [exact Hr|]. exists next; split; [exact He|].
    destruct next; reflexivity.
  - left; auto.
  - left; auto.
Qed.

Lemma rtc_env_invariant (I : World -> Prop) w w' :
  (forall x y, I x -> env_step x y -> I y) ->
  I w -> rtc env_step w w' -> I w'.
Proof. intros Hpres HI Hr; induction Hr; eauto. Qed.

Lemma rtc_env_no_tasks w w' :
  tasks w = [] -> rtc env_step w w' ->
  tasks w' = [] /\ obs (ctrl w') = obs (ctrl w).
Proof.
  intros Ht Hr.
  apply (rtc_env_invariant
           (fun x => tasks x = [] /\ obs (ctrl x) = obs (ctrl w)) w w');
    [|auto|exact Hr].
  intros x y [Hx Ho] Hs.
  destruct (env_step_no_tasks x y Hx Hs) as [Hy Ho'].
  split; [exact Hy|congruence].
Qed.

(** Replaying a schedule of browser steps. *)
Definition env_action (x : Action) : bool :=
  match x with ACall _ => false | _ => true end.

Lemma act_env_step x w w' :
  env_action x = true -> act x w = Some w' -> env_step w w'.
Proof.
  destruct x as [call|i|a|]; simpl; intros He Ha; try discriminate.
  - destruct (tasks w !! i) as [t|] eqn:Hi; [|discriminate].
    destruct (task_ready (ctrl w) t) eqn:Hr; [|discriminate].
    destruct (resume (ctrl w) (pc t)) as [c' next] eqn:Hres.
    injection Ha as <-. eapply env_resume; eauto.
  - destruct (existsb (Nat.eqb a) (runningIds (ctrl w))) eqn:Hin;
      [|discriminate].
    injection Ha as <-. apply env_finish.
    apply existsb_exists in Hin as [a' [Hin Heq]].
    apply Nat.eqb_eq in Heq; subst a'; exact Hin.
  - injection Ha as <-. apply env_other.
Qed.

Lemma act_step x w w' : act x w = Some w' -> step w w'.
Proof.
  intros Ha. destruct (env_action x) eqn:He.
  - apply step_env; eapply act_env_step; eauto.
  - destruct x as [call| | |]; try discriminate.
    simpl in Ha; injection Ha as <-. apply step_call.
Qed.

Lemma exec_env xs w w' :
  forallb env_action xs = true -> exec xs w = Some w' -> rtc env_step w w'.
Proof.
  revert w; induction xs as [|x xs IH]; simpl; intros w Hall Hex.
  - injection Hex as <-; reflexivity.
  - apply andb_prop in Hall as [Hx Hall].
    destruct (act x w) as [w1|] eqn:Ha; [|discriminate].
    eapply rtc_l; [eapply act_env_step; eauto|]. eauto.
Qed.

Lemma exec_steps xs w w' : exec xs w = Some w' -> rtc step w w'.
Proof.
  revert w; induction xs as [|x xs IH]; simpl; intros w Hex.
  - injection Hex as <-; reflexivity.
  - destruct (act x w) as [w1|] eqn:Ha; [|discriminate].
    eapply rtc_l; [eapply act_step; eauto|]. eauto.
Qed.

(** Replaying a schedule in call order. *)
Lemma fifo_env_step_env w w' : fifo_env_step w w' -> env_step w w'.
Proof.
  destruct 1 as [w i t c' next Hi Hr _ Hres|w a Ha|w].
  - eapply env_resume; eauto.
  - apply env_finish; exact Ha.
  - apply env_other.
Qed.

Lemma fifo_reachable_reachable w : fifo_reachable w -> reachable w.
Proof.
  intros [trigger Hr]; exists trigger.
  eapply rtc_subrel; [|exact Hr].
  intros x y Hs; destruct Hs as [x' y' Hs|x' call].
  - apply step_env, fifo_env_step_env, Hs.
  - apply step_call.
Qed.

Lemma fifo_act_env_step x w w' :
  env_action x = true -> fifo_act x w = Some w' -> fifo_env_step w w'.
Proof.
  destruct x as [call|i|a|]; simpl; intros He Ha; try discriminate.
  - destruct (tasks w !! i) as [t|] eqn:Hi; [|discriminate].
    destruct (fifo_ok (tasks w) i t) eqn:Hf; [|discriminate].
    simpl in Ha; try rewrite Hi in Ha.
    destruct (task_ready (ctrl w) t) eqn:Hr; [|discriminate].
    destruct (resume (ctrl w) (pc t)) as [c' next] eqn:Hres.
    injection Ha as <-. eapply fifo_resume; eauto.
  - destruct (existsb (Nat.eqb a) (runningIds (ctrl w))) eqn:Hin;
      [|discriminate].
    injection Ha as <-. apply fifo_finish.
    apply existsb_exists in Hin as [a' [Hin Heq]].
    apply Nat.eqb_eq in Heq; subst a'; exact Hin.
  - injection Ha as <-. apply fifo_other.
Qed.

Lemma fifo_act_step x w w' : fifo_act x w = Some w' -> fifo_step w w'.
Proof.
  intros Ha. destruct (env_action x) eqn:He.
  - apply fifo_step_env; eapply fifo_act_env_step; eauto.
  - destruct x as [call| | |]; try discriminate.
    simpl in Ha; injection Ha as <-. apply fifo_step_call.
Qed.

Lemma fifo_exec_env xs w w' :
  forallb env_action xs = true -> fifo_exec xs w = Some w' ->
  rtc fifo_env_step w w'.
Proof.
  revert w; induction xs as [|x xs IH]; simpl; intros w Hall Hex.
  - injection Hex as <-; reflexivity.
  - apply andb_prop in Hall as [Hx Hall].
    destruct (fifo_act x w) as [w1|] eqn:Ha; [|discriminate].
    eapply rtc_l; [eapply fifo_act_env_step; eauto|]. eauto.
Qed.

Lemma fifo_exec_steps xs w w' : fifo_exec xs w = Some w' -> rtc fifo_step w w'.
Proof.
  revert w; induction xs as [|x xs IH]; simpl; intros w Hex.
  - injection Hex as <-; reflexivity.
  - destruct (fifo_act x w) as [w1|] eqn:Ha; [|discriminate].
    eapply rtc_l; [eapply fifo_act_step; eauto|]. eauto.
Qed.

Lemma fifo_exec_invariant (I : World -> Prop) xs w w' :
  (forall x y, I x -> fifo_env_step x y -> I y) ->
  I w -> forallb env_action xs = true -> fifo_exec xs w = Some w' -> I w'.
Proof.
  intros Hpres HI Hall Hex.
  pose proof (fifo_exec_env xs w w' Hall Hex) as Hr. clear Hall Hex.
  induction Hr as [|x y z Hxy _ IH]; [exact HI|].
  apply IH; eapply Hpres; eauto.
Qed.

(** ** Clicks, keys, and repeated calls *)

Lemma contains_spec (n o : Node) : contains n o = true <-> exists s, o = n ++ s.
Proof.
  revert o; induction n as [|x n IH]; intros o; simpl.
  - split; [intros _; exists o; reflexivity|auto].
  - destruct o as [|y o].
    + split; [discriminate|intros [s Hs]; discriminate].
    + rewrite andb_true_iff, Nat.eqb_eq, IH. split.
      * intros [-> [s ->]]; exists s; reflexivity.
      * intros [s Hs]; injection Hs as -> ->; eauto.
Qed.

Lemma isOpen_close w : isOpen (ctrl (close w)) = false.
Proof.
  unfold close, close_then; destruct (isOpen (ctrl w)) eqn:Ho; simpl;
    [reflexivity|exact Ho].
Qed.

(** C1. While the document click listener is registered, a click invokes
    [close()] exactly when the picker is open, the click is not a picker
    click, and its target is not the trigger element or inside it. *)
Theorem onDocumentClick_closes_iff (ev : MouseEvent) (w : World) :
  clickListenerAttached (ctrl w) = true ->
  ((isOpen (ctrl w) = true /\ pickerClick ev = false /\
    ~ (exists t s, triggerElement (ctrl w) = Some t /\ target ev = t ++ s)) ->
   dispatchDocumentClick ev w = close w) /\
  (~ (isOpen (ctrl w) = true /\ pickerClick ev = false /\
      ~ (exists t s, triggerElement (ctrl w) = Some t /\ target ev = t ++ s)) ->
   dispatchDocumentClick ev w = w).
Proof.
  intros Hl.
  assert (Hiff : closesOnClick (ctrl w) ev = true <->
    isOpen (ctrl w) = true /\ pickerClick ev = false /\
    ~ (exists t s, triggerElement (ctrl w) = Some t /\ target ev = t ++ s)).
  { unfold closesOnClick, isClickOnTrigger.
    rewrite !andb_true_iff, !negb_true_iff.
    destruct (triggerElement (ctrl w)) as [t|].
    - destruct (contains t (target ev)) eqn:Hc.
      + apply contains_spec in Hc as [s Hs].
        split; [intros [_ Hf]; discriminate|].
        intros [_ [_ Hn]]; exfalso; apply Hn; eauto.
      + split; intros [[Ho Hp] _] || intros [Ho [Hp _]].
        * repeat split; auto. intros [t' [s [Ht Hs]]].
          injection Ht as <-. assert (contains t (target ev) = true) by
            (apply contains_spec; eauto). congruence.
        * auto.
    - split; [intros [[Ho Hp] _]|intros [Ho [Hp _]]].
      + repeat split; auto. intros [t' [s [Ht _]]]; discriminate.
      + auto. }
  unfold dispatchDocumentClick, onDocumentClick; rewrite Hl.
  split; intros H.
  - apply Hiff in H; rewrite H; reflexivity.
  - destruct (closesOnClick (ctrl w) ev) eqn:Hc; [|reflexivity].
    exfalso; apply H, Hiff; reflexivity.
Qed.

(** C4. [open()] on an open picker and [close()] on a closed one return at
    once and change nothing. *)
Theorem open_close_idempotent (w : World) :
  (isOpen (ctrl w) = true -> open w = w) /\
  (isOpen (ctrl w) = false -> close w = w).
Proof.
  unfold open, close, close_then; split; intros H; rewrite H; reflexivity.
Qed.

(** C5. A keydown on the popup closes the picker when the key is
    ['Escape'], and leaves the controller unchanged for any other key. *)
Theorem handleKeydown_escape_only (key : string) (w : World) :
  (key = "Escape"%string ->
   handleKeydown key w = close w /\ isOpen (ctrl (handleKeydown key w)) = false) /\
  (key <> "Escape"%string -> handleKeydown key w = w).
Proof.
  unfold handleKeydown; split; intros H.
  - subst key; simpl. split; [reflexivity|apply isOpen_close].
  - destruct (String.eqb_spec key "Escape"%string); [contradiction|reflexivity].
Qed.

(** ** What each segment does *)

Lemma resume_open_pending c c' next :
  resume c OpenAfterPending = (c', next) ->
  (exists aw, next = Some (mkTask OpenAfterShow aw)) /\
  isOpen c' = isOpen c /\ popupAttached c' = true /\
  emitted c' = emitted c /\ externalListeners c' = externalListeners c /\
  clickListenerAttached c' = clickListenerAttached c /\
  pickerDestroyed c' = pickerDestroyed c /\
  positionCleanup c' = Some (nextId c) /\
  activePositioning c' =
    nextId c :: match positionCleanup c with
                | Some p => List.filter (fun q => negb (Nat.eqb q p))
                              (activePositioning c)
                | None => activePositioning c
                end.
Proof.
  simpl; intros H; injection H as <- <-.
  destruct (setPosition_fields (set_popupAttached true c))
    as (H1 & H2 & H3 & H4 & H5 & H6 & H7 & H8).
  simpl in *. repeat split; eauto.
Qed.

Lemma resume_open_show c c' next :
  resume c OpenAfterShow = (c', next) ->
  next = None /\ c' = emit "picker:open"%string c.
Proof. simpl; intros H; injection H as <- <-; auto. Qed.

Lemma resume_close_pending c k c' next :
  resume c (CloseAfterPending k) = (c', next) ->
  (exists aw, next = Some (mkTask (CloseAfterHide k) aw)) /\ obs c' = obs c.
Proof. simpl; intros H; injection H as <- <-; eauto. Qed.

Lemma resume_close_hide c k c' next :
  resume c (CloseAfterHide k) = (c', next) ->
  next = None /\ isOpen c' = isOpen c /\ popupAttached c' = false /\
  match positionCleanup c with
  | Some p =>
      positionCleanup c' = Some p /\
      activePositioning c' =
        List.filter (fun q => negb (Nat.eqb q p)) (activePositioning c) /\
      (k = ContinueDestroy ->
       clickListenerAttached c' = false /\ pickerDestroyed c' = true /\
       externalListeners c' = [])
  | None => c' = set_popupAttached false c
  end.
Proof.
  simpl; destruct (positionCleanup c) as [p|] eqn:Hp; intros H;
    injection H as <- <-.
  - destruct k; simpl; rewrite ?Hp; repeat split; auto; discriminate.
  - auto.
Qed.

Lemma obs_emit e c :
  isOpen (emit e c) = isOpen c /\ popupAttached (emit e c) = popupAttached c /\
  emitted (emit e c) = emitted c ++ [e] /\
  positionCleanup (emit e c) = positionCleanup c /\
  activePositioning (emit e c) = activePositioning c /\
  externalListeners (emit e c) = externalListeners c /\
  clickListenerAttached (emit e c) = clickListenerAttached c /\
  pickerDestroyed (emit e c) = pickerDestroyed c.
Proof. repeat split. Qed.

Ltac obs_same H := unfold obs in H; simpl in H; congruence.

(** ** A single [open()] or [close()] run to its end *)

Definition open_run (e0 : list string) (w : World) : Prop :=
  (exists aw, tasks w = [mkTask OpenAfterPending aw] /\
              isOpen (ctrl w) = true /\ emitted (ctrl w) = e0) \/
  (exists aw, tasks w = [mkTask OpenAfterShow aw] /\
              isOpen (ctrl w) = true /\ popupAttached (ctrl w) = true /\
              emitted (ctrl w) = e0) \/
  (tasks w = [] /\ isOpen (ctrl w) = true /\ popupAttached (ctrl w) = true /\
   emitted (ctrl w) = e0 ++ ["picker:open"%string]).

Lemma open_run_step e0 x y : open_run e0 x -> env_step x y -> open_run e0 y.
Proof.
  intros [(aw & Ht & Ho & He)|[(aw & Ht & Ho & Ha & He)|(Ht & Ho & Ha & He)]] Hs.
  - destruct (env_step_one_task x y _ Ht Hs)
      as [[Ht' Hobs]|(_ & next & Hr & Ht')].
    + left; exists aw; repeat split; [exact Ht'|obs_same Hobs..].
    + simpl in Hr. apply resume_open_pending in Hr
        as ([aw' ->] & H1 & H2 & H3 & _).
      right; left; exists aw'; repeat split; [exact Ht'|congruence..].
  - destruct (env_step_one_task x y _ Ht Hs)
      as [[Ht' Hobs]|(_ & next & Hr & Ht')].
    + right; left; exists aw; repeat split; [exact Ht'|obs_same Hobs..].
    + simpl in Hr. apply resume_open_show in Hr as [-> Hc].
      destruct (obs_emit "picker:open"%string (ctrl x))
        as (H1 & H2 & H3 & _).
      right; right; rewrite Hc; repeat split; [exact Ht'|congruence..].
  - destruct (env_step_no_tasks x y Ht Hs) as [Ht' Hobs].
    right; right; repeat split; [exact Ht'|obs_same Hobs..].
Qed.

Definition close_run (w : World) : Prop :=
  (exists k aw, tasks w = [mkTask (CloseAfterPending k) aw] /\
                isOpen (ctrl w) = false) \/
  (exists k aw, tasks w = [mkTask (CloseAfterHide k) aw] /\
                isOpen (ctrl w) = false) \/
  (tasks w = [] /\ isOpen (ctrl w) = false /\ popupAttached (ctrl w) = false).

Lemma close_run_step x y : close_run x -> env_step x y -> close_run y.
Proof.
  intros [(k & aw & Ht & Ho)|[(k & aw & Ht & Ho)|(Ht & Ho & Ha)]] Hs.
  - destruct (env_step_one_task x y _ Ht Hs)
      as [[Ht' Hobs]|(_ & next & Hr & Ht')].
    + left; exists k, aw; split; [exact Ht'|obs_same Hobs].
    + simpl in Hr. apply resume_close_pending in Hr as ([aw' ->] & Hobs).
      right; left; exists k, aw'; split; [exact Ht'|obs_same Hobs].
    - destruct (env_step_one_task x y _ Ht Hs)
      as [[Ht' Hobs]|(_ & next & Hr & Ht')].
    + right; left; exists k, aw; split; [exact Ht'|obs_same Hobs].
    + simpl in Hr. apply resume_close_hide in Hr as (-> & H1 & H2 & _).
      right; right; repeat split; [exact Ht'|congruence..].
  - destruct (env_step_no_tasks x y Ht Hs) as [Ht' Hobs].
    right; right; repeat split; [exact Ht'|obs_same Hobs..].
Qed.


(** ** Positioning: at most one installation is active *)

Definition pos_inv (c : Controller) : Prop :=
  activePositioning c = [] \/
  exists p, activePositioning c = [p] /\ positionCleanup c = Some p.

Lemma open_ctrl w :
  ctrl (open w) =
  if isOpen (ctrl w) then ctrl w else set_isOpen true (ctrl w).
Proof. unfold open; destruct (isOpen (ctrl w)); reflexivity. Qed.

Lemma close_then_ctrl k w :
  ctrl (close_then k w) =
  if isOpen (ctrl w) then set_isOpen false (ctrl w) else ctrl w.
Proof. unfold close_then; destruct (isOpen (ctrl w)); reflexivity. Qed.

Lemma perform_pos call w :
  positionCleanup (ctrl (perform call w)) = positionCleanup (ctrl w) /\
  activePositioning (ctrl (perform call w)) = activePositioning (ctrl w).
Proof.
  destruct call; simpl;
    unfold toggle, destroy, on, close,
      dispatchDocumentClick, onDocumentClick, handleKeydown;
    rewrite ?open_ctrl, ?close_then_ctrl;
    repeat (case_match; unfold close; rewrite ?open_ctrl, ?close_then_ctrl);
    simpl; auto.
Qed.

Lemma filter_single_self p :
  List.filter (fun q => negb (Nat.eqb q p)) [p] = [].
Proof. simpl. rewrite Nat.eqb_refl. reflexivity. Qed.

Lemma pos_inv_env_step x y : pos_inv (ctrl x) -> env_step x y -> pos_inv (ctrl y).
Proof.
  intros HI Hs; destruct Hs as [x i t c' next _ _ Hr|x a _|x]; simpl.
  - destruct (pc t) as [| |k|k]; simpl in Hr.
    + apply resume_open_pending in Hr as (_ & _ & _ & _ & _ & _ & _ & H1 & H2).
      right; exists (nextId (ctrl x)); split; [|exact H1].
      rewrite H2; f_equal.
      destruct HI as [H0|(p & H0 & Hp)].
      * rewrite H0; destruct (positionCleanup (ctrl x)); reflexivity.
      * rewrite Hp, H0; apply filter_single_self.
    + apply resume_open_show in Hr as [_ ->]. exact HI.
    + apply resume_close_pending in Hr as [_ Hobs].
      assert (Hc : positionCleanup c' = positionCleanup (ctrl x))
        by obs_same Hobs.
      assert (Ha : activePositioning c' = activePositioning (ctrl x))
        by obs_same Hobs.
      unfold pos_inv; rewrite Hc, Ha; exact HI.
    + apply resume_close_hide in Hr as (_ & _ & _ & Hm).
      destruct (positionCleanup (ctrl x)) as [p|] eqn:Hp.
      * destruct Hm as (H1 & H2 & _). left. rewrite H2.
        destruct HI as [H0|(q & H0 & Hq)]; rewrite H0; [reflexivity|].
        rewrite Hp in Hq; injection Hq as ->; apply filter_single_self.
      * subst c'. exact HI.
  - exact HI.
  - exact HI.
Qed.

Lemma pos_inv_step x y : pos_inv (ctrl x) -> step x y -> pos_inv (ctrl y).
Proof.
  intros HI Hs; destruct Hs as [x' y' Hs|x' call].
  - eapply pos_inv_env_step; eauto.
  - destruct (perform_pos call x') as [H1 H2].
    unfold pos_inv; rewrite H1, H2; exact HI.
Qed.

Lemma pos_inv_reachable w : reachable w -> pos_inv (ctrl w).
Proof.
  intros [trigger Hr].
  assert (H0 : pos_inv (ctrl (initWorld trigger))) by (left; reflexivity).
  induction Hr as [|x y z Hxy _ IH]; [exact H0|].
  apply IH; eapply pos_inv_step; eauto.
Qed.

(** ** Sequential use *)

Definition pobs (c : Controller) :=
  (isOpen c, popupAttached c, positionCleanup c, activePositioning c).

(** Between calls, a closed picker has its popup out of the document and
    no active positioning; an open one has its popup attached and exactly
    the installation [this.positionCleanup] releases. *)
Definition seq_ctrl_inv (c : Controller) : Prop :=
  (isOpen c = false -> popupAttached c = false /\ activePositioning c = []) /\
  (isOpen c = true -> popupAttached c = true /\
     exists p, positionCleanup c = Some p /\ activePositioning c = [p]).

Lemma seq_ctrl_inv_pobs c c' :
  pobs c' = pobs c -> seq_ctrl_inv c -> seq_ctrl_inv c'.
Proof.
  unfold pobs; intros H; injection H as H1 H2 H3 H4.
  unfold seq_ctrl_inv; rewrite H1, H2, H3, H4; auto.
Qed.

Lemma pobs_of_obs c c' : obs c' = obs c -> pobs c' = pobs c.
Proof. unfold obs, pobs; intros H; injection H; congruence. Qed.

Lemma quiet_run_inv w w' :
  tasks w = [] -> seq_ctrl_inv (ctrl w) -> rtc env_step w w' ->
  tasks w' = [] /\ seq_ctrl_inv (ctrl w').
Proof.
  intros Ht HI Hr; destruct (rtc_env_no_tasks w w' Ht Hr) as [Ht' Hobs].
  split; [exact Ht'|]. eapply seq_ctrl_inv_pobs; [|exact HI].
  apply pobs_of_obs, Hobs.
Qed.

Definition open_seq_run (w : World) : Prop :=
  (exists aw, tasks w = [mkTask OpenAfterPending aw] /\
              isOpen (ctrl w) = true /\ activePositioning (ctrl w) = []) \/
  ((tasks w = [] \/ exists aw, tasks w = [mkTask OpenAfterShow aw]) /\
   isOpen (ctrl w) = true /\ seq_ctrl_inv (ctrl w)).

Lemma open_seq_run_step x y :
  open_seq_run x -> env_step x y -> open_seq_run y.
Proof.
  intros [(aw & Ht & Ho & Ha)|([Ht|(aw & Ht)] & Ho & HI)] Hs.
  - destruct (env_step_one_task x y _ Ht Hs)
      as [[Ht' Hobs]|(_ & next & Hr & Ht')].
    + left; exists aw; repeat split; [exact Ht'|obs_same Hobs..].
    + simpl in Hr. apply resume_open_pending in Hr
        as ([aw' ->] & H1 & H2 & _ & _ & _ & _ & H3 & H4).
      right; split; [right; exists aw'; exact Ht'|].
      split; [congruence|]. split; [congruence|].
      intros _; split; [exact H2|]. exists (nextId (ctrl x)).
      split; [exact H3|]. rewrite H4, Ha.
      destruct (positionCleanup (ctrl x)); reflexivity.
  - destruct (rtc_env_no_tasks x y Ht (rtc_once _ _ Hs)) as [Ht' Hobs].
    right; split; [left; exact Ht'|]. split; [obs_same Hobs|].
    eapply seq_ctrl_inv_pobs; [apply pobs_of_obs, Hobs|exact HI].
  - destruct (env_step_one_task x y _ Ht Hs)
      as [[Ht' Hobs]|(_ & next & Hr & Ht')].
    + right; split; [right; exists aw; exact Ht'|].
      split; [obs_same Hobs|].
      eapply seq_ctrl_inv_pobs; [apply pobs_of_obs, Hobs|exact HI].
    + simpl in Hr. apply resume_open_show in Hr as [-> Hc].
      right; split; [left; exact Ht'|]. rewrite Hc. split; [exact Ho|].
      eapply seq_ctrl_inv_pobs; [reflexivity|exact HI].
Qed.

Definition close_seq_run (k : AfterClose) (c0 : Controller) (w : World)
    : Prop :=
  (exists aw,
     (tasks w = [mkTask (CloseAfterPending k) aw] \/
      tasks w = [mkTask (CloseAfterHide k) aw]) /\
     isOpen (ctrl w) = false /\
     (exists p, positionCleanup (ctrl w) = Some p /\
                activePositioning (ctrl w) = [p]) /\
     clickListenerAttached (ctrl w) = clickListenerAttached c0 /\
     pickerDestroyed (ctrl w) = pickerDestroyed c0 /\
     externalListeners (ctrl w) = externalListeners c0) \/
  (tasks w = [] /\ isOpen (ctrl w) = false /\
   popupAttached (ctrl w) = false /\ activePositioning (ctrl w) = [] /\
   (k = ContinueDestroy ->
    clickListenerAttached (ctrl w) = false /\ pickerDestroyed (ctrl w) = true /\
    externalListeners (ctrl w) = [])).

Lemma close_seq_run_step k c0 x y :
  close_seq_run k c0 x -> env_step x y -> close_seq_run k c0 y.
Proof.
  intros [(aw & Htt & Ho & (p & Hp & Ha) & Hl & Hd & He)|
          (Ht & Ho & Hat & Ha & Hk)] Hs.
  - destruct Htt as [Ht|Ht];
      destruct (env_step_one_task x y _ Ht Hs)
        as [[Ht' Hobs]|(_ & next & Hr & Ht')].
    + left; exists aw; split; [left; exact Ht'|].
      repeat split; try obs_same Hobs.
      exists p; split; obs_same Hobs.
    + simpl in Hr. apply resume_close_pending in Hr as ([aw' ->] & Hobs).
      left; exists aw'; split; [right; exact Ht'|].
      repeat split; try obs_same Hobs.
      exists p; split; obs_same Hobs.
    + left; exists aw; split; [right; exact Ht'|].
      repeat split; try obs_same Hobs.
      exists p; split; obs_same Hobs.
    + simpl in Hr. apply resume_close_hide in Hr as (-> & H1 & H2 & Hm).
      rewrite Hp in Hm; destruct Hm as (_ & H3 & Hk).
      right; split; [exact Ht'|]. split; [congruence|].
      split; [exact H2|]. split; [|exact Hk].
      rewrite H3, Ha; apply filter_single_self.
  - destruct (env_step_no_tasks x y Ht Hs) as [Ht' Hobs].
    right; split; [exact Ht'|]. split; [obs_same Hobs|].
    split; [obs_same Hobs|]. split; [obs_same Hobs|].
    intros Hkd; destruct (Hk Hkd) as (H1 & H2 & H3).
    repeat split; obs_same Hobs.
Qed.

Lemma close_seq_run_init k w :
  tasks w = [] -> seq_ctrl_inv (ctrl w) -> isOpen (ctrl w) = true ->
  close_seq_run k (ctrl w) (close_then k w).
Proof.
  intros Ht [_ HI] Ho. destruct (HI Ho) as [_ (p & Hp & Ha)].
  unfold close_then; rewrite Ho; simpl; rewrite Ht.
  left; eexists; split; [left; reflexivity|].
  repeat split; eauto.
Qed.

Lemma perform_shape call w :
  perform call w = w \/ perform call w = open w \/
  (exists k, perform call w = close_then k w) \/
  perform call w = mkWorld (destroyRest (ctrl w)) (tasks w) \/
  (exists e cb, perform call w = on e cb w).
Proof.
  destruct call; simpl;
    unfold toggle, destroy, dispatchDocumentClick, onDocumentClick,
      handleKeydown, close;
    repeat case_match; eauto 10.
Qed.

Lemma seq_reachable_inv w :
  seq_reachable w -> tasks w = [] /\ seq_ctrl_inv (ctrl w).
Proof.
  induction 1 as [trigger|w call w' _ [Ht HI] Hr Ht'].
  - split; [reflexivity|]. split; [auto|discriminate].
  - destruct (perform_shape call w)
      as [Hc|[Hc|[(k & Hc)|[Hc|(e & cb & Hc)]]]]; rewrite Hc in Hr.
    + eapply quiet_run_inv; [exact Ht|exact HI|exact Hr].
    + destruct (isOpen (ctrl w)) eqn:Ho.
      * unfold open in Hr; rewrite Ho in Hr.
        eapply quiet_run_inv; [exact Ht|exact HI|exact Hr].
      * assert (Hinv : open_seq_run w').
        { eapply rtc_env_invariant; [apply open_seq_run_step| |exact Hr].
          unfold open; rewrite Ho; simpl; rewrite Ht.
          left; eexists; split; [reflexivity|]. split; [reflexivity|].
          apply (proj1 HI Ho). }
        destruct Hinv as [(aw & Hx & _)|(_ & _ & HI')];
          [congruence|auto].
    + destruct (isOpen (ctrl w)) eqn:Ho.
      * assert (Hinv : close_seq_run k (ctrl w) w').
        { eapply rtc_env_invariant; [apply close_seq_run_step| |exact Hr].
          apply close_seq_run_init; auto. }
        destruct Hinv as [(aw & [Hx|Hx] & _)|(_ & H1 & H2 & H3 & _)];
          [congruence|congruence|].
        split; [exact Ht'|]. split; [auto|congruence].
      * unfold close_then in Hr; rewrite Ho in Hr.
        eapply quiet_run_inv; [exact Ht|exact HI|exact Hr].
    + refine (quiet_run_inv _ w' _ _ Hr); [exact Ht|].
      eapply seq_ctrl_inv_pobs; [reflexivity|exact HI].
    + refine (quiet_run_inv _ w' _ _ Hr); [exact Ht|].
      eapply seq_ctrl_inv_pobs; [reflexivity|exact HI].
Qed.

(** ** Calls resuming in call order *)

Lemma resume_teardown c p c' next :
  resume c p = (c', next) ->
  clickListenerAttached c = false -> pickerDestroyed c = true ->
  clickListenerAttached c' = false /\ pickerDestroyed c' = true.
Proof.
  destruct p as [| |k|k]; simpl.
  - intros H; injection H as <- _.
    unfold setPosition; simpl; destruct (positionCleanup c); simpl; auto.
  - intros H; injection H as <- _; simpl; auto.
  - intros H; injection H as <- _; simpl; auto.
  - destruct (positionCleanup c); [destruct k|]; intros H;
      injection H as <- _; simpl; auto.
Qed.

Lemma env_step_isOpen w w' : env_step w w' -> isOpen (ctrl w') = isOpen (ctrl w).
Proof.
  intros Hs; destruct Hs as [w i t c' next _ _ Hr|w a _|w]; simpl;
    [|reflexivity|reflexivity].
  destruct (pc t) as [| |k|k]; simpl in Hr.
  - apply resume_open_pending in Hr as (_ & H & _); exact H.
  - apply resume_open_show in Hr as [_ ->]; reflexivity.
  - apply resume_close_pending in Hr as [_ Hobs]; obs_same Hobs.
  - apply resume_close_hide in Hr as (_ & H & _); exact H.
Qed.

Lemma in_delete_or {A} (l : list A) i x y :
  l !! i = Some x -> In y l -> y = x \/ In y (delete i l).
Proof.
  revert i; induction l as [|z l IH]; intros [|i] Hi Hy; simpl in *;
    try discriminate.
  - injection Hi as ->. destruct Hy as [->|Hy]; auto.
  - destruct Hy as [->|Hy]; [right; left; reflexivity|].
    destruct (IH i Hi Hy) as [->|H]; auto.
Qed.

Lemma in_insert_or {A} (l : list A) i x x' y :
  l !! i = Some x -> In y l -> y = x \/ In y (<[i:=x']> l).
Proof.
  revert i; induction l as [|z l IH]; intros [|i] Hi Hy; simpl in *;
    try discriminate.
  - injection Hi as ->. destruct Hy as [->|Hy]; auto.
  - destruct Hy as [->|Hy]; [right; left; reflexivity|].
    destruct (IH i Hi Hy) as [->|H]; auto.
Qed.

Lemma last_In {A} (l : list A) x : last l = Some x -> In x l.
Proof.
  induction l as [|y l IH]; [discriminate|].
  destruct l as [|z l].
  - intros H; injection H as ->; left; reflexivity.
  - intros H; right; apply IH; exact H.
Qed.

Lemma last_cons_some {A} (t : A) l u : last l = Some u -> last (t :: l) = Some u.
Proof. destruct l as [|a l]; [discriminate|intros H; exact H]. Qed.

Lemma last_cons_exists {A} (t : A) l : exists u, last (t :: l) = Some u.
Proof.
  revert t; induction l as [|a l IH]; intros t; [exists t; reflexivity|].
  destruct (IH a) as [u Hu]. exists u; exact Hu.
Qed.

Lemma delete_app_l {A} (l1 l2 : list A) i :
  i < length l1 -> delete i (l1 ++ l2) = delete i l1 ++ l2.
Proof.
  revert i; induction l1 as [|x l1 IH]; intros [|i] Hi; simpl in *;
    try lia; [reflexivity|].
  rewrite IH by lia; reflexivity.
Qed.

Lemma pending_calls_snoc ts t :
  pending_calls (ts ++ [t]) =
    pending_calls ts ++ (if is_pending t then [t] else []).
Proof.
  unfold pending_calls; induction ts as [|u ts IH]; simpl.
  - destruct (is_pending t); reflexivity.
  - destruct (is_pending u); simpl; rewrite IH; reflexivity.
Qed.

Lemma pending_calls_delete ts i t :
  ts !! i = Some t -> is_pending t = false ->
  pending_calls (delete i ts) = pending_calls ts.
Proof.
  unfold pending_calls; revert i; induction ts as [|u ts IH];
    intros [|i] Hi Hp; simpl in *; try discriminate.
  - injection Hi as ->. rewrite Hp. reflexivity.
  - rewrite (IH i Hi Hp). reflexivity.
Qed.

Lemma pending_calls_insert_first ts i t t' :
  ts !! i = Some t -> is_pending t = true ->
  forallb (fun u => negb (is_pending u)) (take i ts) = true ->
  is_pending t' = false ->
  pending_calls ts = t :: pending_calls (<[i:=t']> ts).
Proof.
  unfold pending_calls; revert i; induction ts as [|u ts IH];
    intros [|i] Hi Hp Hf Hp'; simpl in *; try discriminate.
  - injection Hi as ->. rewrite Hp, Hp'. reflexivity.
  - apply andb_prop in Hf as [Hu Hf]. apply negb_true_iff in Hu.
    rewrite Hu. exact (IH i Hi Hp Hf Hp').
Qed.

Lemma fifo_ok_first ts i t :
  is_pending t = true -> fifo_ok ts i t = true ->
  forallb (fun u => negb (is_pending u)) (take i ts) = true.
Proof. unfold fifo_ok; intros Hp; rewrite Hp; exact id. Qed.

Lemma fifo_ok_all_pending ts i t :
  Forall (fun u => is_pending u = true) ts -> ts !! i = Some t ->
  fifo_ok ts i t = true -> i = 0.
Proof.
  intros Hall Hi Hf. destruct i as [|i]; [reflexivity|exfalso].
  pose proof (Forall_lookup_1 _ _ _ _ Hall Hi) as Ht.
  apply (fifo_ok_first _ _ _ Ht) in Hf.
  destruct ts as [|u ts]; [discriminate|].
  inversion Hall as [|? ? Hu _]; subst.
  simpl in Hf; rewrite Hu in Hf; discriminate.
Qed.

Lemma last_pending_open ts u :
  (forall y, In y ts -> is_close y = false) ->
  last (pending_calls ts) = Some u -> opens_pc u = true.
Proof.
  intros Hnc Hu. apply last_In in Hu. unfold pending_calls in Hu.
  apply filter_In in Hu as [Hin Hp]. specialize (Hnc u Hin).
  unfold is_close, is_pending, opens_pc in *.
  destruct (pc u); congruence.
Qed.

Lemma resume_next_nonpending c p c' t' :
  resume c p = (c', Some t') -> is_pending t' = false.
Proof.
  destruct p as [| |k|k]; simpl.
  - intros H; injection H as _ <-; reflexivity.
  - intros H; injection H as _ H; discriminate.
  - intros H; injection H as _ <-; reflexivity.
  - destruct (positionCleanup c); [destruct k|]; intros H;
      injection H as _ H; discriminate.
Qed.

Lemma resume_listeners_nil c p c' next :
  resume c p = (c', next) ->
  externalListeners c = [] -> externalListeners c' = [].
Proof.
  destruct p as [| |k|k]; simpl.
  - intros H; injection H as <- _.
    unfold setPosition; simpl; destruct (positionCleanup c); simpl; auto.
  - intros H; injection H as <- _; simpl; auto.
  - intros H; injection H as <- _; simpl; auto.
  - destruct (positionCleanup c); [destruct k|]; intros H;
      injection H as <- _; simpl; auto.
Qed.

(** Resuming calls in call order, the controller keeps these facts:
    - while [this.positionCleanup] is [undefined], every call is before its
      first resumption, the oldest is an [open()], and an open picker has
      such a call;
    - the newest call before its first resumption decides [isOpen]: open
      after an [open()], closed after a [close()];
    - a closed picker with no [close()] in progress has no active
      positioning;
    - at most one positioning installation is active. *)
Definition fifo_inv (w : World) : Prop :=
  (positionCleanup (ctrl w) = None ->
     Forall (fun t => is_pending t = true) (tasks w) /\
     (forall t, head (tasks w) = Some t -> pc t = OpenAfterPending) /\
     (isOpen (ctrl w) = true -> tasks w <> [])) /\
  (forall t, last (pending_calls (tasks w)) = Some t ->
     isOpen (ctrl w) = opens_pc t) /\
  (isOpen (ctrl w) = false -> Forall (fun t => is_close t = false) (tasks w) ->
     activePositioning (ctrl w) = []) /\
  pos_inv (ctrl w).

Lemma fifo_inv_init trigger : fifo_inv (initWorld trigger).
Proof.
  split; [|split; [|split]].
  - intros _; split; [constructor|]. split; [discriminate|]. discriminate.
  - intros t H; discriminate H.
  - intros _ _; reflexivity.
  - left; reflexivity.
Qed.

Lemma fifo_inv_same w w' :
  tasks w' = tasks w -> isOpen (ctrl w') = isOpen (ctrl w) ->
  positionCleanup (ctrl w') = positionCleanup (ctrl w) ->
  activePositioning (ctrl w') = activePositioning (ctrl w) ->
  fifo_inv w -> fifo_inv w'.
Proof.
  intros Ht Ho Hc Ha. unfold fifo_inv, pos_inv.
  rewrite Ht, Ho, Hc, Ha. exact id.
Qed.

Lemma fifo_inv_perform call w : fifo_inv w -> fifo_inv (perform call w).
Proof.
  intros HI.
  destruct (perform_shape call w)
    as [->|[->|[(k & ->)|[->|(e & cb & ->)]]]].
  - exact HI.
  - unfold open. destruct (isOpen (ctrl w)) eqn:Ho; [exact HI|].
    destruct HI as (HN & HL & HJ & HP).
    unfold fifo_inv; cbn [negb ctrl tasks isOpen positionCleanup set_isOpen initiateOpenStateChange].
    split; [|split; [|split]].
    + intros Hc. destruct (HN Hc) as (H1 & H2 & H3).
      split; [apply Forall_app; split; [exact H1|repeat constructor]|].
      split; [|intros _ Hn; destruct (tasks w); discriminate].
      intros t. revert H2. destruct (tasks w) as [|u ts]; simpl.
      * intros _ H; injection H as <-; reflexivity.
      * intros H2; apply H2.
    + intros t Ht. rewrite pending_calls_snoc in Ht. simpl in Ht.
      rewrite last_snoc in Ht. injection Ht as <-. reflexivity.
    + discriminate.
    + exact HP.
  - unfold close_then. destruct (isOpen (ctrl w)) eqn:Ho; [|exact HI].
    destruct HI as (HN & HL & HJ & HP).
    unfold fifo_inv; cbn [negb ctrl tasks isOpen positionCleanup set_isOpen initiateOpenStateChange].
    split; [|split; [|split]].
    + intros Hc. destruct (HN Hc) as (H1 & H2 & H3).
      split; [apply Forall_app; split; [exact H1|repeat constructor]|].
      split; [|discriminate].
      specialize (H3 Ho). intros t. revert H2 H3.
      destruct (tasks w) as [|u ts]; simpl; [congruence|].
      intros H2 _; apply H2.
    + intros t Ht. rewrite pending_calls_snoc in Ht. simpl in Ht.
      rewrite last_snoc in Ht. injection Ht as <-. reflexivity.
    + intros _ Hall. apply Forall_app in Hall as [_ Hall].
      inversion Hall as [|? ? Hx _]; discriminate Hx.
    + exact HP.
  - eapply fifo_inv_same; [..|exact HI]; reflexivity.
  - eapply fifo_inv_same; [..|exact HI]; reflexivity.
Qed.

Lemma fifo_inv_env_step w w' : fifo_inv w -> fifo_env_step w w' -> fifo_inv w'.
Proof.
  intros HI Hs.
  assert (HP' : pos_inv (ctrl w'))
    by (eapply pos_inv_env_step;
        [exact (proj2 (proj2 (proj2 HI)))|apply fifo_env_step_env, Hs]).
  assert (Ho : isOpen (ctrl w') = isOpen (ctrl w))
    by (apply env_step_isOpen, fifo_env_step_env, Hs).
  destruct HI as (HN & HL & HJ & HP).
  destruct Hs as [w i t c' next Hi Hr Hf Hres|w a _|w];
    [|eapply fifo_inv_same; [..|split; [exact HN|split; [exact HL|split; [exact HJ|exact HP]]]]; reflexivity..].
  simpl in Ho, HP'. unfold fifo_inv; cbn [ctrl tasks].
  destruct (pc t) as [| |k|k] eqn:Hp.
  - assert (Hpend : is_pending t = true) by (unfold is_pending; rewrite Hp; reflexivity).
    apply resume_open_pending in Hres as ([aw ->] & _ & _ & _ & _ & _ & _ & Hc & _).
    cbn [after_resume].
    assert (Hpc := pending_calls_insert_first _ _ _ (mkTask OpenAfterShow aw) Hi
                     Hpend (fifo_ok_first _ _ _ Hpend Hf) eq_refl).
    split; [|split; [|split]].
    + rewrite Hc; discriminate.
    + intros u Hu. rewrite Ho. apply HL. rewrite Hpc.
      apply last_cons_some; exact Hu.
    + intros Hoff Hall. exfalso.
      assert (Hnc : forall y, In y (tasks w) -> is_close y = false).
      { intros y Hy.
        destruct (in_insert_or _ _ _ (mkTask OpenAfterShow aw) _ Hi Hy)
          as [->|Hy'].
        - unfold is_close; rewrite Hp; reflexivity.
        - rewrite List.Forall_forall in Hall; apply Hall, Hy'. }
      destruct (last_cons_exists t (pending_calls (<[i:=mkTask OpenAfterShow aw]> (tasks w))))
        as [u Hu].
      rewrite <- Hpc in Hu.
      pose proof (HL u Hu) as Hou.
      rewrite (last_pending_open _ _ Hnc Hu) in Hou. congruence.
    + exact HP'.
  - assert (Hnp : is_pending t = false) by (unfold is_pending; rewrite Hp; reflexivity).
    apply resume_open_show in Hres as [-> ->].
    cbn [after_resume emit set_events isOpen positionCleanup activePositioning].
    split; [|split; [|split]].
    + intros Hc. destruct (HN Hc) as (Hall & _).
      pose proof (Forall_lookup_1 _ _ _ _ Hall Hi) as Hx. congruence.
    + intros u Hu. rewrite (pending_calls_delete _ _ _ Hi Hnp) in Hu.
      apply HL, Hu.
    + intros Hoff Hall. apply HJ; [exact Hoff|].
      apply List.Forall_forall. intros y Hy.
      destruct (in_delete_or _ _ _ _ Hi Hy) as [->|Hy'].
      * unfold is_close; rewrite Hp; reflexivity.
      * rewrite List.Forall_forall in Hall; apply Hall, Hy'.
    + exact HP.
  - assert (Hpend : is_pending t = true) by (unfold is_pending; rewrite Hp; reflexivity).
    apply resume_close_pending in Hres as ([aw ->] & Hobs).
    cbn [after_resume].
    assert (Hc : positionCleanup c' = positionCleanup (ctrl w)) by obs_same Hobs.
    assert (Hpc := pending_calls_insert_first _ _ _ (mkTask (CloseAfterHide k) aw) Hi
                     Hpend (fifo_ok_first _ _ _ Hpend Hf) eq_refl).
    split; [|split; [|split]].
    + rewrite Hc. intros Hc0. exfalso.
      destruct (HN Hc0) as (Hall & Hhead & _).
      pose proof (fifo_ok_all_pending _ _ _ Hall Hi Hf) as ->.
      rewrite <- head_lookup in Hi. rewrite (Hhead t Hi) in Hp. discriminate.
    + intros u Hu. rewrite Ho. apply HL. rewrite Hpc.
      apply last_cons_some; exact Hu.
    + intros _ Hall. exfalso.
      assert (Hlt : i < length (tasks w)) by (apply lookup_lt_Some in Hi; exact Hi).
      pose proof (Forall_lookup_1 _ _ _ _ Hall
                    (list_lookup_insert_eq _ _ (mkTask (CloseAfterHide k) aw) Hlt)) as Hx.
      discriminate Hx.
    + exact HP'.
  - assert (Hnp : is_pending t = false) by (unfold is_pending; rewrite Hp; reflexivity).
    apply resume_close_hide in Hres as (-> & _ & _ & Hm).
    cbn [after_resume].
    split; [|split; [|split]].
    + intros Hc. exfalso.
      destruct (positionCleanup (ctrl w)) as [q|] eqn:Eq.
      * destruct Hm as (Hm & _). congruence.
      * destruct (HN eq_refl) as (Hall & _).
        pose proof (Forall_lookup_1 _ _ _ _ Hall Hi) as Hx. congruence.
    + intros u Hu. rewrite (pending_calls_delete _ _ _ Hi Hnp) in Hu.
      rewrite Ho. apply HL, Hu.
    + intros _ _.
      destruct (positionCleanup (ctrl w)) as [q|] eqn:Eq.
      * destruct Hm as (_ & Hm & _). rewrite Hm.
        destruct HP as [H0|(q' & H0 & Hq)]; rewrite H0; [reflexivity|].
        rewrite Eq in Hq; injection Hq as ->; apply filter_single_self.
      * subst c'. simpl.
        destruct HP as [H0|(q' & _ & Hq)]; [exact H0|congruence].
    + exact HP'.
Qed.

Lemma fifo_reachable_inv w : fifo_reachable w -> fifo_inv w.
Proof.
  intros [trigger Hr].
  pose proof (fifo_inv_init trigger) as H0.
  induction Hr as [|x y z Hxy _ IH]; [exact H0|].
  apply IH. destruct Hxy as [x' y' Hs|x' call].
  - eapply fifo_inv_env_step; eauto.
  - apply fifo_inv_perform, H0.
Qed.

(** C6 (as the code behaves). At most one positioning installation is
    ever active, whatever the interleaving of calls and browser steps;
    [setPosition] releases the previous installation before adding the new
    one; the last segment of [close()] removes the popup and releases the
    installation of [this.positionCleanup]; and, calls resuming in call
    order, a closed picker with no [close()] in progress has no active
    positioning. While a [close()] is in progress the picker is already
    closed and its installation is still active. *)
Theorem positioning_at_most_one (c : Controller) (k : AfterClose) :
  (forall w, reachable w -> length (activePositioning (ctrl w)) <= 1) /\
  (forall p, positionCleanup c = Some p ->
     positionCleanup (setPosition c) = Some (nextId c) /\
     activePositioning (setPosition c) =
       nextId c :: List.filter (fun q => negb (Nat.eqb q p))
                     (activePositioning c)) /\
  (popupAttached (fst (resume c (CloseAfterHide k))) = false /\
   forall p, positionCleanup c = Some p ->
     activePositioning (fst (resume c (CloseAfterHide k))) =
       List.filter (fun q => negb (Nat.eqb q p)) (activePositioning c)) /\
  (forall w, fifo_reachable w -> isOpen (ctrl w) = false ->
     Forall (fun t => is_close t = false) (tasks w) ->
     activePositioning (ctrl w) = []).
Proof.
  split; [|split; [|split]].
  - intros w Hw. destruct (pos_inv_reachable w Hw) as [H|(p & H & _)];
      rewrite H; simpl; lia.
  - intros p Hp. destruct (setPosition_fields c)
      as (_ & _ & _ & _ & _ & _ & H1 & H2).
    rewrite Hp in H2; auto.
  - destruct (resume c (CloseAfterHide k)) as [c' next] eqn:Hr; simpl.
    apply resume_close_hide in Hr as (_ & _ & H1 & Hm).
    split; [exact H1|]. intros p Hp; rewrite Hp in Hm.
    destruct Hm as (_ & H2 & _); exact H2.
  - intros w Hw Ho Hall.
    exact (proj1 (proj2 (proj2 (fifo_reachable_inv w Hw))) Ho Hall).
Qed.

(** ** [destroy()] run in call order *)

(** The click listener removed, the inner picker destroyed, no external
    callback left. *)
Definition torn_down (c : Controller) : Prop :=
  clickListenerAttached c = false /\ pickerDestroyed c = true /\
  externalListeners c = [].

Lemma torn_down_env_step w w' :
  torn_down (ctrl w) -> env_step w w' -> torn_down (ctrl w').
Proof.
  intros (Hl & Hd & He) Hs.
  destruct Hs as [w i t c' next _ _ Hres|w a _|w]; simpl;
    [|repeat split; assumption..].
  destruct (resume_teardown _ _ _ _ Hres Hl Hd) as [H1 H2].
  repeat split; [exact H1|exact H2|exact (resume_listeners_nil _ _ _ _ Hres He)].
Qed.

(** A [destroy()] that closes the picker, followed through the browser
    steps: [Some j] while its [close()] is the call at index [j], the
    newest one; [None] once it has run to its end. *)
Definition destroy_run (w : World) (j : option nat) : Prop :=
  fifo_inv w /\ isOpen (ctrl w) = false /\
  match j with
  | Some j =>
      exists ts t, tasks w = ts ++ [t] /\ j = length ts /\
        (pc t = CloseAfterPending ContinueDestroy \/
         (pc t = CloseAfterHide ContinueDestroy /\
          Forall (fun u => is_pending u = false) ts))
  | None =>
      Forall (fun u => is_pending u = false) (tasks w) /\
      popupAttached (ctrl w) = false /\ torn_down (ctrl w)
  end.

Lemma destroy_run_done w w' :
  destroy_run w None -> fifo_env_step w w' -> destroy_run w' None.
Proof.
  intros (HI & Ho & Hall & Ha & Ht) Hs.
  split; [eapply fifo_inv_env_step; eauto|].
  pose proof (fifo_env_step_env _ _ Hs) as He.
  split; [rewrite (env_step_isOpen _ _ He); exact Ho|].
  split; [|split; [|exact (torn_down_env_step _ _ Ht He)]].
  - destruct Hs as [w i t c' next Hi _ _ Hres|w a _|w]; simpl; [|exact Hall..].
    pose proof (Forall_lookup_1 _ _ _ _ Hall Hi) as Hnp.
    unfold is_pending in Hnp.
    destruct (pc t) as [| |k|k]; try discriminate.
    + apply resume_open_show in Hres as [-> _]. apply Forall_delete, Hall.
    + apply resume_close_hide in Hres as (-> & _). apply Forall_delete, Hall.
  - destruct Hs as [w i t c' next Hi _ _ Hres|w a _|w]; simpl; [|exact Ha..].
    pose proof (Forall_lookup_1 _ _ _ _ Hall Hi) as Hnp.
    unfold is_pending in Hnp.
    destruct (pc t) as [| |k|k]; try discriminate.
    + apply resume_open_show in Hres as [_ ->]. exact Ha.
    + apply resume_close_hide in Hres as (_ & _ & H & _). exact H.
Qed.

Lemma destroy_run_step x w w1 j :
  destroy_run w (Some j) -> env_action x = true -> fifo_act x w = Some w1 ->
  destroy_run w1 (follow_step x w j).
Proof.
  intros (HI & Ho & ts & o & Ht & -> & Ho') Hx Ha.
  pose proof (fifo_act_env_step _ _ _ Hx Ha) as Hs.
  pose proof (fifo_inv_env_step _ _ HI Hs) as HI1.
  assert (Ho1 : isOpen (ctrl w1) = false)
    by (rewrite (env_step_isOpen _ _ (fifo_env_step_env _ _ Hs)); exact Ho).
  destruct x as [call|i|a|]; try discriminate.
  - unfold fifo_act in Ha.
    destruct (tasks w !! i) as [t0|] eqn:Hi; [|discriminate].
    destruct (fifo_ok (tasks w) i t0) eqn:Hf; [|discriminate].
    simpl in Ha; rewrite Hi in Ha.
    destruct (task_ready (ctrl w) t0) eqn:Hr; [|discriminate].
    destruct (resume (ctrl w) (pc t0)) as [c' next] eqn:Hres.
    injection Ha as <-.
    unfold follow_step; rewrite Hi, Hres; cbn [snd].
    split; [exact HI1|]. split; [exact Ho1|]. cbn [tasks ctrl].
    rewrite Ht in Hi, Hf |- *.
    destruct (lt_eq_lt_dec i (length ts)) as [[Hlt| -> ]|Hgt].
    + rewrite lookup_app_l in Hi by exact Hlt.
      destruct next as [t'|]; cbn [after_resume].
      * exists (<[i:=t']> ts), o.
        split; [apply insert_app_l; exact Hlt|].
        split; [rewrite length_insert; reflexivity|].
        destruct Ho' as [Ho'|[Ho' Hall]]; [left; exact Ho'|right].
        split; [exact Ho'|].
        apply Forall_insert; [exact Hall|].
        exact (resume_next_nonpending _ _ _ _ Hres).
      * assert (Hne : Nat.eqb i (length ts) = false)
          by (apply Nat.eqb_neq; lia).
        assert (Hlb : Nat.ltb i (length ts) = true)
          by (apply Nat.ltb_lt; exact Hlt).
        rewrite Hne, Hlb.
        exists (delete i ts), o.
        split; [apply delete_app_l; exact Hlt|].
        split; [rewrite length_delete by (rewrite Hi; eexists; reflexivity); reflexivity|].
        destruct Ho' as [Ho'|[Ho' Hall]]; [left; exact Ho'|right].
        split; [exact Ho'|]. apply Forall_delete, Hall.
    + rewrite (list_lookup_middle ts [] o (length ts) eq_refl) in Hi.
      injection Hi as <-.
      destruct Ho' as [Hp|[Hp Hall]]; rewrite Hp in Hres.
      * apply resume_close_pending in Hres as ([aw ->] & _).
        cbn [after_resume].
        exists ts, (mkTask (CloseAfterHide ContinueDestroy) aw).
        split.
        { replace (length ts) with (length ts + 0) by lia.
          rewrite insert_app_r. reflexivity. }
        split; [reflexivity|]. right; split; [reflexivity|].
        assert (Hpend : is_pending o = true)
          by (unfold is_pending; rewrite Hp; reflexivity).
        apply (fifo_ok_first _ _ _ Hpend) in Hf.
        rewrite take_app_length in Hf.
        apply List.Forall_forall; intros u Hu.
        rewrite forallb_forall in Hf. apply negb_true_iff, Hf, Hu.
      * rewrite Nat.eqb_refl.
        pose proof Hres as Hres'.
        apply resume_close_hide in Hres as (-> & _ & Hpop & Hm).
        cbn [after_resume].
        destruct (positionCleanup (ctrl w)) as [p|] eqn:Ep.
        { destruct Hm as (_ & _ & Hk). destruct (Hk eq_refl) as (H1 & H2 & H3).
          split; [|split; [exact Hpop|split; [exact H1|split; [exact H2|exact H3]]]].
          rewrite (delete_middle ts [] o), app_nil_r. exact Hall. }
        { exfalso. destruct HI as [HN _]. destruct (HN Ep) as (Hp' & _).
          rewrite Ht in Hp'. apply Forall_app in Hp' as [_ Hp'].
          inversion Hp' as [|? ? Hq _]. unfold is_pending in Hq.
          rewrite Hp in Hq. discriminate. }
    + exfalso. rewrite lookup_ge_None_2 in Hi; [discriminate|].
      rewrite length_app; simpl; lia.
  - simpl in Ha.
    destruct (existsb (Nat.eqb a) (runningIds (ctrl w))); [|discriminate].
    injection Ha as <-. simpl.
    split; [exact HI1|]. split; [exact Ho1|].
    exists ts, o; split; [exact Ht|]. split; [reflexivity|exact Ho'].
  - simpl in Ha. injection Ha as <-. simpl.
    split; [exact HI1|]. split; [exact Ho1|].
    exists ts, o; split; [exact Ht|]. split; [reflexivity|exact Ho'].
Qed.

Lemma destroy_run_follow xs w w' j :
  destroy_run w (Some j) -> forallb env_action xs = true ->
  fifo_exec xs w = Some w' -> destroy_run w' (follow_task xs w j).
Proof.
  revert w j; induction xs as [|x xs IH]; simpl; intros w j HD Hall Hex.
  - injection Hex as <-; exact HD.
  - apply andb_prop in Hall as [Hx Hall].
    destruct (fifo_act x w) as [w1|] eqn:Ha; [|discriminate].
    pose proof (destroy_run_step x w w1 j HD Hx Ha) as H1.
    destruct (follow_step x w j) as [j1|].
    + exact (IH w1 j1 H1 Hall Hex).
    + exact (fifo_exec_invariant (fun v => destroy_run v None) xs w1 w'
               destroy_run_done H1 Hall Hex).
Qed.

(** C10. Calls resuming in call order, from any reachable state (calls
    still in progress included): [destroy()] on an open picker starts a
    full [close()] and awaits it, the newest call; on a closed picker it
    tears down at once. Once [destroy()] has run to its end, the picker is
    closed, its popup is out of the document when it was open, the click
    listener is removed, the inner picker is destroyed and no external
    callback remains: a document click no longer affects the controller
    and an emitted event runs no callback. This stays so after any further
    browser steps. *)
Theorem destroy_complete (w w' : World) (xs : list Action) :
  fifo_reachable w -> forallb env_action xs = true ->
  fifo_exec xs (destroy w) = Some w' ->
  (isOpen (ctrl w) = true -> forall j,
   follow_task xs (destroy w) (length (tasks w)) = Some j ->
   exists t, tasks w' !! j = Some t /\
     (pc t = CloseAfterPending ContinueDestroy \/
      pc t = CloseAfterHide ContinueDestroy)) /\
  ((isOpen (ctrl w) = true ->
    follow_task xs (destroy w) (length (tasks w)) = None) ->
   isOpen (ctrl w') = false /\
   (isOpen (ctrl w) = true -> popupAttached (ctrl w') = false) /\
   clickListenerAttached (ctrl w') = false /\
   pickerDestroyed (ctrl w') = true /\ externalListeners (ctrl w') = [] /\
   (forall ev, dispatchDocumentClick ev w' = w') /\
   (forall e, invokedCallbacks (emit e (ctrl w')) = invokedCallbacks (ctrl w'))).
Proof.
  intros Hw Hall Hex. pose proof (fifo_reachable_inv w Hw) as HI.
  assert (Hfinal : forall v, isOpen (ctrl v) = false -> torn_down (ctrl v) ->
            isOpen (ctrl v) = false /\ clickListenerAttached (ctrl v) = false /\
            pickerDestroyed (ctrl v) = true /\ externalListeners (ctrl v) = [] /\
            (forall ev, dispatchDocumentClick ev v = v) /\
            (forall e, invokedCallbacks (emit e (ctrl v)) = invokedCallbacks (ctrl v))).
  { intros v Ho (Hl & Hd & He).
    repeat split; try assumption.
    - intros ev; unfold dispatchDocumentClick; rewrite Hl; reflexivity.
    - intros e; simpl; rewrite He; simpl; apply app_nil_r. }
  destruct (isOpen (ctrl w)) eqn:Ho.
  - assert (HD : destroy_run (destroy w) (Some (length (tasks w)))).
    { pose proof (fifo_inv_perform CDestroy w HI) as HI'. simpl in HI'.
      unfold destroy, close_then in HI' |- *. rewrite Ho in HI' |- *.
      split; [exact HI'|]. split; [reflexivity|].
      exists (tasks w), (mkTask (CloseAfterPending ContinueDestroy)
                           (runningIds (set_isOpen false (ctrl w)))).
      split; [reflexivity|]. split; [reflexivity|]. left; reflexivity. }
    pose proof (destroy_run_follow xs _ w' _ HD Hall Hex) as HR.
    split.
    + intros _ j Hj. rewrite Hj in HR.
      destruct HR as (_ & _ & ts & o & Ht & -> & Ho').
      exists o. split.
      * rewrite Ht. apply list_lookup_middle; reflexivity.
      * destruct Ho' as [Hp|[Hp _]]; [left|right]; exact Hp.
    + intros Hdone. rewrite (Hdone eq_refl) in HR.
      destruct HR as (_ & Ho' & _ & Hpop & Htd).
      destruct (Hfinal w' Ho' Htd) as (H1 & H2 & H3 & H4 & H5 & H6).
      repeat split; auto.
  - split; [discriminate|]. intros _.
    assert (H0 : isOpen (ctrl (destroy w)) = false /\
                 torn_down (ctrl (destroy w))).
    { unfold destroy; rewrite Ho; simpl.
      split; [exact Ho|]. repeat split. }
    assert (Hend : isOpen (ctrl w') = false /\ torn_down (ctrl w')).
    { apply (fifo_exec_invariant
               (fun v => isOpen (ctrl v) = false /\ torn_down (ctrl v))
               xs (destroy w) w'); [|exact H0|exact Hall|exact Hex].
      intros x y [Hx Ht] Hs. pose proof (fifo_env_step_env _ _ Hs) as He.
      split; [rewrite (env_step_isOpen _ _ He); exact Hx|].
      exact (torn_down_env_step _ _ Ht He). }
    destruct Hend as [Ho' Htd].
    destruct (Hfinal w' Ho' Htd) as (H1 & H2 & H3 & H4 & H5 & H6).
    repeat split; auto; discriminate.
Qed.

(** ** Animation sequencing *)

Lemma resume_running_kept c p c' next :
  (p = OpenAfterShow \/ exists k, p = CloseAfterHide k) ->
  resume c p = (c', next) -> runningAnimations c' = runningAnimations c.
Proof.
  intros [->|[k ->]]; simpl.
  - intros H; injection H as <- _; reflexivity.
  - destruct (positionCleanup c); intros H; injection H as <- _;
      [destruct k|]; reflexivity.
Qed.

Lemma setPosition_running c :
  runningAnimations (setPosition c) = runningAnimations c /\
  nextId (setPosition c) = S (nextId c).
Proof. unfold setPosition; destruct (positionCleanup c); split; reflexivity. Qed.

Lemma task_ready_awaited c t :
  task_ready c t = true -> forall b, In b (awaiting t) -> ~ In b (runningIds c).
Proof.
  unfold task_ready; rewrite forallb_forall; intros H b Hb Hin.
  specialize (H b Hb). apply negb_true_iff in H.
  assert (existsb (Nat.eqb b) (runningIds c) = true)
    by (apply existsb_exists; exists b; split; [exact Hin|apply Nat.eqb_refl]).
  congruence.
Qed.

(** C2 (as the code behaves). [open()] and [close()] record the new open
    state first and then await exactly the animations running at that
    moment. A ['show-picker'] or ['hide-picker'] animation starts only when
    a suspended [open()] (for show) or [close()] (for hide) resumes, that
    call being ready: none of the animations it awaited is still running.
    The resumed call then awaits the new animation. Animations started
    after the moment of the call are not awaited. *)
Theorem open_close_await_running (w : World) :
  (isOpen (ctrl w) = false ->
   isOpen (ctrl (open w)) = true /\
   tasks (open w) = tasks w ++ [mkTask OpenAfterPending (runningIds (ctrl w))]) /\
  (isOpen (ctrl w) = true ->
   isOpen (ctrl (close w)) = false /\
   tasks (close w) =
     tasks w ++ [mkTask (CloseAfterPending ReturnToCaller) (runningIds (ctrl w))]) /\
  (forall w' a, env_step w w' ->
   In a (runningAnimations (ctrl w')) -> ~ In a (runningAnimations (ctrl w)) ->
   anim_name a <> OtherAnimation ->
   exists i t, tasks w !! i = Some t /\
     (forall b, In b (awaiting t) -> ~ In b (runningIds (ctrl w))) /\
     ((pc t = OpenAfterPending /\ anim_name a = ShowPicker /\
       tasks w' = <[i := mkTask OpenAfterShow [anim_id a]]> (tasks w)) \/
      (exists k, pc t = CloseAfterPending k /\ anim_name a = HidePicker /\
       tasks w' = <[i := mkTask (CloseAfterHide k) [anim_id a]]> (tasks w)))).
Proof.
  split; [|split].
  - intros Ho; unfold open; rewrite Ho; split; reflexivity.
  - intros Ho; unfold close, close_then; rewrite Ho; split; reflexivity.
  - intros w' a Hs Hin Hnot Hname.
    destruct Hs as [w i t c' next Hi Hr Hres|w b _|w]; simpl in Hin.
    + exists i, t; split; [exact Hi|].
      split; [exact (task_ready_awaited _ _ Hr)|].
      destruct (pc t) as [| |k|k] eqn:Hp.
      * left.
        change (resume (ctrl w) OpenAfterPending) with
          (let '(c2, a) := animate ShowPicker
             (setPosition (set_popupAttached true (ctrl w))) in
           (c2, Some (mkTask OpenAfterShow [a]))) in Hres.
        pose proof (proj1 (setPosition_running (set_popupAttached true (ctrl w))))
          as Hrun.
        remember (setPosition (set_popupAttached true (ctrl w))) as c1.
        simpl in Hres; injection Hres as <- <-.
        simpl in Hin. rewrite Hrun in Hin.
        apply in_app_or in Hin as [Hin|[<-|[]]];
          [exfalso; exact (Hnot Hin)|].
        split; [reflexivity|]. split; reflexivity.
      * exfalso; apply Hnot.
        rewrite <- (resume_running_kept _ _ _ _ (or_introl eq_refl) Hres).
        exact Hin.
      * right; exists k. simpl in Hres; injection Hres as <- <-.
        simpl in Hin. apply in_app_or in Hin as [Hin|[<-|[]]];
          [exfalso; exact (Hnot Hin)|].
        split; [reflexivity|]. split; reflexivity.
      * exfalso; apply Hnot.
        rewrite <- (resume_running_kept _ _ _ _ (or_intror (ex_intro _ k eq_refl)) Hres).
        exact Hin.
    + exfalso; apply Hnot. simpl in Hin.
      apply filter_In in Hin as [Hin _]; exact Hin.
    + exfalso. simpl in Hin. apply in_app_or in Hin as [Hin|Hin];
        [exact (Hnot Hin)|].
      destruct Hin as [<-|[]]; apply Hname; reflexivity.
Qed.

(** C2 (as stated) fails: [open(); close();] in one tick from the initial
    state. Neither call finds a running animation to await; [open()]
    resumes and starts ['show-picker'], then [close()] resumes and starts
    ['hide-picker'] while ['show-picker'] is still running. *)
Lemma show_hide_overlap :
  ~ (forall w w' a, fifo_reachable w -> env_step w w' ->
     In a (runningAnimations (ctrl w')) -> ~ In a (runningAnimations (ctrl w)) ->
     anim_name a <> OtherAnimation ->
     runningAnimations (ctrl w) = []).
Proof.
  intros H.
  destruct (fifo_exec [ACall COpen; ACall CClose; AResume 0] (initWorld None))
    as [w1|] eqn:E1; [|vm_compute in E1; discriminate].
  destruct (act (AResume 1) w1) as [w2|] eqn:E2;
    [|pose proof E1 as E; vm_compute in E; injection E as <-;
      vm_compute in E2; discriminate].
  assert (Hr : fifo_reachable w1) by (exists None; eapply fifo_exec_steps; exact E1).
  assert (Hs : env_step w1 w2)
    by (apply (act_env_step (AResume 1)); [reflexivity|exact E2]).
  pose proof E1 as E; vm_compute in E; injection E as <-.
  vm_compute in E2; injection E2 as <-.
  pose proof (H _ _ (mkAnimation 2 HidePicker) Hr Hs) as Hbad.
  simpl in Hbad.
  assert (Hin : In (mkAnimation 2 HidePicker)
                  [mkAnimation 1 ShowPicker; mkAnimation 2 HidePicker])
    by (simpl; auto).
  assert (Hout : ~ In (mkAnimation 2 HidePicker) [mkAnimation 1 ShowPicker])
    by (simpl; intros [Hx|[]]; discriminate).
  specialize (Hbad Hin Hout ltac:(discriminate)). discriminate Hbad.
Qed.

(** ** [toggle], the continuations and the browser *)

(** X1. [toggle()] always starts a call: on an open picker it is [close()],
    on a closed one [open()]; the open state flips at once and the started
    call awaits the animations running at that moment. *)
Theorem toggle_flips_isOpen (w : World) :
  isOpen (ctrl (toggle w)) = negb (isOpen (ctrl w)) /\
  tasks (toggle w) =
    tasks w ++ [mkTask (if isOpen (ctrl w) then CloseAfterPending ReturnToCaller
                        else OpenAfterPending) (runningIds (ctrl w))].
Proof.
  unfold toggle, open, close, close_then.
  destruct (isOpen (ctrl w)) eqn:Ho; simpl; split; reflexivity.
Qed.

(** X2. Under sequential use, once [toggle()] has run to its end the open
    state is the opposite of the one before, the popup is in the document
    exactly when the picker is now open, and the controller is again
    between calls. *)
Theorem toggle_run_complete (w w' : World) :
  seq_reachable w -> rtc env_step (toggle w) w' -> tasks w' = [] ->
  isOpen (ctrl w') = negb (isOpen (ctrl w)) /\
  popupAttached (ctrl w') = negb (isOpen (ctrl w)) /\
  seq_reachable w'.
Proof.
  intros Hw Hr Ht'.
  assert (Hs : seq_reachable w') by (apply (seq_call w CToggle w'); auto).
  destruct (seq_reachable_inv w Hw) as [Ht _].
  destruct (seq_reachable_inv w' Hs) as [_ [HI1 HI2]].
  assert (Ho' : isOpen (ctrl w') = negb (isOpen (ctrl w))).
  { unfold toggle in Hr; destruct (isOpen (ctrl w)) eqn:Ho; simpl.
    - assert (Hinv : close_run w').
      { eapply rtc_env_invariant; [apply close_run_step| |exact Hr].
        unfold close, close_then; rewrite Ho; simpl; rewrite Ht.
        left; do 2 eexists; split; reflexivity. }
      destruct Hinv as [(k & aw & Hx & _)|[(k & aw & Hx & _)|(_ & H1 & _)]];
        [congruence|congruence|exact H1].
    - assert (Hinv : open_run (emitted (ctrl w)) w').
      { eapply rtc_env_invariant; [apply open_run_step| |exact Hr].
        unfold open; rewrite Ho; simpl; rewrite Ht.
        left; eexists; split; [reflexivity|]. split; reflexivity. }
      destruct Hinv as [(aw & Hx & _)|[(aw & Hx & _)|(_ & H1 & _)]];
        [congruence|congruence|exact H1]. }
  split; [exact Ho'|]. split; [|exact Hs].
  rewrite <- Ho'. destruct (isOpen (ctrl w')) eqn:E.
  - exact (proj1 (HI2 eq_refl)).
  - exact (proj1 (HI1 eq_refl)).
Qed.

(** X4. The open state only changes when a method is called: while calls
    are in progress, their remaining segments, finishing animations and
    other animations never change [isOpen]. *)
Theorem browser_steps_keep_isOpen (w w' : World) :
  rtc env_step w w' -> isOpen (ctrl w') = isOpen (ctrl w).
Proof.
  induction 1 as [|x y z Hxy _ IH]; [reflexivity|].
  rewrite IH; apply env_step_isOpen, Hxy.
Qed.

Lemma perform_emitted call w :
  emitted (ctrl (perform call w)) = emitted (ctrl w).
Proof.
  destruct (perform_shape call w)
    as [->|[->|[(k & ->)|[->|(e & cb & ->)]]]].
  - reflexivity.
  - rewrite open_ctrl; destruct (isOpen (ctrl w)); reflexivity.
  - rewrite close_then_ctrl; destruct (isOpen (ctrl w)); reflexivity.
  - reflexivity.
  - reflexivity.
Qed.

Lemma resume_emitted c p c' next :
  resume c p = (c', next) ->
  emitted c' = emitted c \/ emitted c' = emitted c ++ ["picker:open"%string].
Proof.
  destruct p as [| |k|k]; simpl.
  - intros H; injection H as <- _; left.
    unfold setPosition; simpl; destruct (positionCleanup c); reflexivity.
  - intros H; injection H as <- _; right; reflexivity.
  - intros H; injection H as <- _; left; reflexivity.
  - destruct (positionCleanup c); [destruct k|]; intros H;
      injection H as <- _; left; reflexivity.
Qed.

(** X5. The controller emits no event other than ['picker:open'], whatever
    the interleaving of calls and browser steps. *)
Theorem only_picker_open_emitted (w : World) :
  reachable w -> Forall (fun e => e = "picker:open"%string) (emitted (ctrl w)).
Proof.
  intros [trigger Hr].
  assert (H0 : Forall (fun e => e = "picker:open"%string)
                 (emitted (ctrl (initWorld trigger)))) by constructor.
  induction Hr as [|x y z Hxy _ IH]; [exact H0|]. apply IH.
  destruct Hxy as [x' y' Hs|x' call].
  - destruct Hs as [x' i t c' next _ _ Hres|x' a _|x']; simpl; [|exact H0|exact H0].
    destruct (resume_emitted _ _ _ _ Hres) as [ -> | -> ]; [exact H0|].
    apply Forall_app; split; [exact H0|]. constructor; [reflexivity|constructor].
  - rewrite perform_emitted; exact H0.
Qed.

Lemma perform_teardown call w :
  clickListenerAttached (ctrl w) = false -> pickerDestroyed (ctrl w) = true ->
  clickListenerAttached (ctrl (perform call w)) = false /\
  pickerDestroyed (ctrl (perform call w)) = true.
Proof.
  intros Hl Hd.
  destruct (perform_shape call w)
    as [->|[->|[(k & ->)|[->|(e & cb & ->)]]]].
  - auto.
  - rewrite open_ctrl; destruct (isOpen (ctrl w)); simpl; auto.
  - rewrite close_then_ctrl; destruct (isOpen (ctrl w)); simpl; auto.
  - simpl; auto.
  - simpl; auto.
Qed.

(** X6. Once the click listener has been removed and the inner picker
    destroyed (the end of [destroy()]), no later call or browser step
    registers the listener again or revives the picker: document clicks
    keep leaving the controller unchanged. *)
Theorem teardown_is_permanent (w w' : World) :
  rtc step w w' ->
  clickListenerAttached (ctrl w) = false -> pickerDestroyed (ctrl w) = true ->
  clickListenerAttached (ctrl w') = false /\ pickerDestroyed (ctrl w') = true /\
  (forall ev, dispatchDocumentClick ev w' = w').
Proof.
  intros Hr Hl Hd.
  assert (H : clickListenerAttached (ctrl w') = false /\
              pickerDestroyed (ctrl w') = true).
  { induction Hr as [|x y z Hxy _ IH]; [auto|]. apply IH.
    - destruct Hxy as [x' y' Hs|x' call].
      + destruct Hs as [x' i t c' next _ _ Hres|x' a _|x']; simpl; auto.
        exact (proj1 (resume_teardown _ _ _ _ Hres Hl Hd)).
      + exact (proj1 (perform_teardown call x' Hl Hd)).
    - destruct Hxy as [x' y' Hs|x' call].
      + destruct Hs as [x' i t c' next _ _ Hres|x' a _|x']; simpl; auto.
        exact (proj2 (resume_teardown _ _ _ _ Hres Hl Hd)).
      + exact (proj2 (perform_teardown call x' Hl Hd)). }
  destruct H as [H1 H2]. split; [exact H1|]. split; [exact H2|].
  intros ev; unfold dispatchDocumentClick; rewrite H1; reflexivity.
Qed.

(** X7. Under sequential use, between calls, the popup is in the document
    exactly when the picker is open, and an open picker has exactly one
    active positioning installation, the one [this.positionCleanup]
    releases. *)
Theorem seq_popup_matches_isOpen (w : World) :
  seq_reachable w ->
  tasks w = [] /\ popupAttached (ctrl w) = isOpen (ctrl w) /\
  (isOpen (ctrl w) = true ->
   exists p, positionCleanup (ctrl w) = Some p /\ activePositioning (ctrl w) = [p]).
Proof.
  intros Hw. destruct (seq_reachable_inv w Hw) as [Ht [HI1 HI2]].
  split; [exact Ht|]. split.
  - destruct (isOpen (ctrl w)) eqn:E; [exact (proj1 (HI2 eq_refl))|].
    exact (proj1 (HI1 eq_refl)).
  - intros Ho; exact (proj2 (HI2 Ho)).
Qed.

(** * Picker options ([src/packages/picmo/src/options.ts]) *)

Module Options.

(** The JavaScript values the options hold; [JObject r] is a reference to
    the object named [r] (the module-level [NativeRenderer] instance,
    [lightTheme], the English dictionary, [document.body], ...). *)
#[warnings="-register-all"]
Inductive JsValue :=
  | JBool (b : bool)
  | JNumber (n : Z)
  | JString (s : string)
  | JArray (xs : list JsValue)
  | JUndefined
  | JObject (r : string).

(** An object literal as its own enumerable properties; a property present
    with value [undefined] is [Some JUndefined]. *)
Abbreviation JsObject := (gmap string JsValue).

(** [{ ...target, ...source }]: the properties of [source] override. *)
Definition spread (target source : JsObject) : JsObject := source ∪ target.

Definition defaultOptions : JsObject :=
  list_to_map [
    ("renderer", JObject "NativeRenderer");
    ("theme", JObject "lightTheme");
    ("animate", JBool true);
    ("showSearch", JBool true);
    ("showCategoryTabs", JBool true);
    ("showVariants", JBool true);
    ("showRecents", JBool true);
    ("showPreview", JBool true);
    ("emojisPerRow", JNumber 8);
    ("visibleRows", JNumber 6);
    ("emojiVersion", JString "auto");
    ("maxRecents", JNumber 50);
    ("i18n", JObject "lang-en");
    ("locale", JString "en");
    ("custom", JArray [])
  ]%string.

(** [getOptions(options = {})]; [None] is an omitted argument. *)
Definition getOptions (options : option JsObject) : JsObject :=
  let o := default ∅ options in
  spread (spread defaultOptions {["rootElement" := JObject "document.body"]}) o.

(** The defaults as the documentation of [PickerOptions] lists them. *)
Definition documented_defaults : list (string * JsValue) :=
  [ ("animate", JBool true);
    ("showSearch", JBool true);
    ("showCategoryTabs", JBool true);
    ("showVariants", JBool true);
    ("showRecents", JBool true);
    ("showPreview", JBool true);
    ("emojisPerRow", JNumber 8);
    ("visibleRows", JNumber 6);
    ("emojiVersion", JString "auto");
    ("maxRecents", JNumber 50);
    ("locale", JString "en");
    ("custom", JArray []);
    ("rootElement", JObject "document.body") ]%string.

(** C9. Every property the caller passes keeps the caller's value
    ([rootElement] included); every documented property the caller omits
    takes its documented default; calling without an argument is calling
    with [{}]. *)
Theorem getOptions_caller_then_defaults (o : gmap string JsValue) :
  (forall k v, o !! k = Some v -> getOptions (Some o) !! k = Some v) /\
  (forall k v, In (k, v) documented_defaults -> o !! k = None ->
     getOptions (Some o) !! k = Some v) /\
  getOptions None = getOptions (Some ∅).
Proof.
  unfold getOptions, spread; simpl. split; [|split].
  - intros k v Hk. apply lookup_union_Some_l, Hk.
  - intros k v Hin Hk. rewrite fin_maps.lookup_union_r by exact Hk.
    simpl in Hin.
    repeat destruct Hin as [Hin|Hin]; try contradiction;
      injection Hin as <- <-; vm_compute; reflexivity.
  - reflexivity.
Qed.

(** X9. [getOptions] is idempotent: passing its result to it again gives
    the same options. *)
Theorem getOptions_idempotent (options : option JsObject) :
  getOptions (Some (getOptions options)) = getOptions options.
Proof.
  unfold getOptions, spread.
  set (B := {["rootElement"%string := JObject "document.body"]} ∪ defaultOptions).
  set (o := default ∅ options).
  change (default ∅ (Some (o ∪ B))) with (o ∪ B).
  rewrite <- (assoc_L (∪)), (idemp_L (∪)). reflexivity.
Qed.

(** X10. The properties of the result are exactly the caller's ones,
    [rootElement], and the properties of [defaultOptions]: none is dropped
    and none is added. *)
Theorem getOptions_keys (o : JsObject) :
  dom (getOptions (Some o)) =
    dom o ∪ ({["rootElement"%string]} ∪ dom defaultOptions).
Proof.
  unfold getOptions, spread; cbn [default].
  rewrite !dom_union_L, dom_singleton_L. reflexivity.
Qed.

(** X11. A caller who omits [renderer] gets the module's single
    [NativeRenderer] instance, so all such calls share the same renderer
    object; one who omits [theme] gets [lightTheme]; one who omits [i18n]
    gets the English dictionary. Each holds whatever else is omitted. *)
Theorem getOptions_shared_defaults (o1 o2 : JsObject) :
  (o1 !! "renderer"%string = None ->
   getOptions (Some o1) !! "renderer"%string = Some (JObject "NativeRenderer")) /\
  (o1 !! "renderer"%string = None -> o2 !! "renderer"%string = None ->
   getOptions (Some o1) !! "renderer"%string =
     getOptions (Some o2) !! "renderer"%string) /\
  (o1 !! "theme"%string = None ->
   getOptions (Some o1) !! "theme"%string = Some (JObject "lightTheme")) /\
  (o1 !! "i18n"%string = None ->
   getOptions (Some o1) !! "i18n"%string = Some (JObject "lang-en")).
Proof.
  unfold getOptions, spread; cbn [default].
  split; [|split; [|split]].
  - intros H1. rewrite (fin_maps.lookup_union_r o1) by exact H1.
    vm_compute; reflexivity.
  - intros H1 H2. rewrite (fin_maps.lookup_union_r o1) by exact H1.
    rewrite (fin_maps.lookup_union_r o2) by exact H2. reflexivity.
  - intros H3. rewrite (fin_maps.lookup_union_r o1) by exact H3.
    vm_compute; reflexivity.
  - intros H4. rewrite (fin_maps.lookup_union_r o1) by exact H4.
    vm_compute; reflexivity.
Qed.

End Options.

(** * Variant popup navigation *)

Module VariantNavigation.

(** Modelled from the spec: the arrow-key handling of [VariantPopup], whose
    source is not part of src/ ("Variant navigation (arrow-key cycling
    through a small fixed list)"). The popup shows a fixed list of [n]
    emoji buttons; ArrowRight moves the focus to the next button and
    ArrowLeft to the previous one, cycling past either end; other keys
    leave the focus where it is. *)
Definition nextIndex (n i : nat) : nat :=
  if Nat.eqb (S i) n then 0 else S i.

Definition prevIndex (n i : nat) : nat :=
  match i with
  | 0 => n - 1
  | S j => j
  end.

Definition handleArrowKey (n : nat) (key : string) (focused : nat) : nat :=
  if String.eqb key "ArrowRight" then nextIndex n focused
  else if String.eqb key "ArrowLeft" then prevIndex n focused
  else focused.

(** The key presses of the repository's VariantPopup test, on its three
    buttons, starting from the first. *)
Example variant_popup_test_sequence :
  fold_left (fun i k => handleArrowKey 3 k i)
    ["ArrowLeft"; "ArrowRight"; "ArrowRight"; "ArrowRight"]%string 0 = 2 /\
  fold_left (fun i k => handleArrowKey 3 k i)
    ["ArrowLeft"; "ArrowRight"; "ArrowRight"; "ArrowRight"; "ArrowRight"]%string
    0 = 0.
Proof. split; reflexivity. Qed.

(** C7. With [n] buttons and button [i] focused, ArrowRight focuses
    [(i+1) mod n] and ArrowLeft focuses [(i-1+n) mod n]: from the last
    button ArrowRight reaches the first, from the first ArrowLeft reaches
    the last. *)
Theorem arrow_keys_cycle (n i : nat) :
  i < n ->
  Z.of_nat (handleArrowKey n "ArrowRight" i) =
    ((Z.of_nat i + 1) mod Z.of_nat n)%Z /\
  Z.of_nat (handleArrowKey n "ArrowLeft" i) =
    ((Z.of_nat i - 1 + Z.of_nat n) mod Z.of_nat n)%Z /\
  handleArrowKey n "ArrowRight" (n - 1) = 0 /\
  handleArrowKey n "ArrowLeft" 0 = n - 1.
Proof.
  intros Hi. unfold handleArrowKey; simpl.
  split; [|split; [|split]].
  - unfold nextIndex. destruct (Nat.eqb_spec (S i) n) as [Hn|Hn].
    + subst n. rewrite Nat2Z.inj_succ, <- Z.add_1_r, Z.mod_same; [reflexivity|lia].
    + rewrite Z.mod_small; lia.
  - unfold prevIndex. destruct i as [|j].
    + rewrite Z.mod_small; lia.
    + replace (Z.of_nat (S j) - 1 + Z.of_nat n)%Z
        with (Z.of_nat j + 1 * Z.of_nat n)%Z by lia.
      rewrite Z_mod_plus_full, Z.mod_small; lia.
  - unfold nextIndex. destruct (Nat.eqb_spec (S (n - 1)) n); [reflexivity|lia].
  - reflexivity.
Qed.

End VariantNavigation.

(** * Instances of the theorems at concrete inputs *)

Lemma opened_world_run :
  rtc env_step (open (initWorld None)) opened_world.
Proof. apply (exec_env [AResume 0; AFinish 1; AResume 0]); vm_compute; reflexivity. Qed.

Lemma opened_world_seq : seq_reachable opened_world.
Proof.
  apply (seq_call (initWorld None) COpen); [constructor|exact opened_world_run|].
  reflexivity.
Qed.

Lemma onDocumentClick_closes_iff_witness :
  clickListenerAttached (ctrl opened_world) = true /\
  dispatchDocumentClick (mkMouseEvent [0; 3] false) opened_world =
    close opened_world.
Proof.
  split; [reflexivity|].
  apply (proj1 (onDocumentClick_closes_iff (mkMouseEvent [0; 3] false)
                  opened_world eq_refl)).
  split; [reflexivity|]. split; [reflexivity|].
  intros (t & s & Ht & _); discriminate Ht.
Defined.

Lemma open_close_await_running_witness :
  isOpen (ctrl busy_world) = false /\
  tasks (open busy_world) = [mkTask OpenAfterPending [0]] /\
  (exists i t, tasks busy_ready !! i = Some t /\
     (forall b, In b (awaiting t) -> ~ In b (runningIds (ctrl busy_ready))) /\
     ((pc t = OpenAfterPending /\
       anim_name (mkAnimation 2 ShowPicker) = ShowPicker /\
       tasks busy_started = <[i := mkTask OpenAfterShow [2]]> (tasks busy_ready)) \/
      (exists k, pc t = CloseAfterPending k /\
       anim_name (mkAnimation 2 ShowPicker) = HidePicker /\
       tasks busy_started =
         <[i := mkTask (CloseAfterHide k) [2]]> (tasks busy_ready)))).
Proof.
  assert (Hs : env_step busy_ready busy_started)
    by (apply (act_env_step (AResume 0)); [reflexivity|vm_compute; reflexivity]).
  assert (Hin : In (mkAnimation 2 ShowPicker) (runningAnimations (ctrl busy_started)))
    by (vm_compute; left; reflexivity).
  assert (Hnot : ~ In (mkAnimation 2 ShowPicker) (runningAnimations (ctrl busy_ready)))
    by (vm_compute; intros []).
  split; [vm_compute; reflexivity|].
  split; [apply (proj1 (open_close_await_running busy_world)); vm_compute; reflexivity|].
  exact (proj2 (proj2 (open_close_await_running busy_ready)) busy_started
           (mkAnimation 2 ShowPicker) Hs Hin Hnot ltac:(discriminate)).
Defined.


Lemma open_close_idempotent_witness :
  isOpen (ctrl opened_world) = true /\ open opened_world = opened_world.
Proof.
  split; [reflexivity|].
  apply (proj1 (open_close_idempotent opened_world) eq_refl).
Defined.

Lemma handleKeydown_escape_only_witness :
  handleKeydown "Enter" opened_world = opened_world /\
  isOpen (ctrl (handleKeydown "Escape" opened_world)) = false.
Proof.
  split.
  - apply (proj2 (handleKeydown_escape_only "Enter" opened_world));
      discriminate.
  - apply (proj1 (handleKeydown_escape_only "Escape" opened_world) eq_refl).
Defined.

Lemma destroyed_world_fifo : fifo_reachable destroyed_world.
Proof.
  exists None.
  apply (fifo_exec_steps [ACall COpen; AResume 0; AFinish 1; AResume 0;
                          ACall CDestroy; AResume 0; AFinish 2; AResume 0]).
  vm_compute; reflexivity.
Qed.

Lemma close_opened_world_fifo : fifo_reachable (close opened_world).
Proof.
  exists None.
  apply (fifo_exec_steps [ACall COpen; AResume 0; AFinish 1; AResume 0;
                          ACall CClose]).
  vm_compute; reflexivity.
Qed.

Lemma positioning_at_most_one_witness :
  length (activePositioning (ctrl opened_world)) <= 1 /\
  activePositioning (ctrl destroyed_world) = [].
Proof.
  destruct (positioning_at_most_one (ctrl opened_world) ReturnToCaller)
    as (H1 & _ & _ & H4).
  split.
  - apply H1. exists None. eapply rtc_l; [apply (step_call _ COpen)|].
    eapply rtc_subrel; [|exact opened_world_run]. intros x y; apply step_env.
  - apply H4; [exact destroyed_world_fifo|vm_compute; reflexivity|].
    vm_compute; constructor.
Defined.

(** C6 (as stated) fails: right after [close()] on [opened_world] the
    picker is closed while the installation of its [open()] (id 0) is
    still active, until [close()] resumes after ['hide-picker']. *)
Lemma closing_positioned :
  ~ (forall w, fifo_reachable w -> isOpen (ctrl w) = false ->
     activePositioning (ctrl w) = []).
Proof.
  intros H.
  pose proof (H _ close_opened_world_fifo (isOpen_close opened_world)) as Hbad.
  vm_compute in Hbad. discriminate Hbad.
Qed.


Lemma destroy_complete_witness :
  isOpen (ctrl (open (initWorld None))) = true /\
  popupAttached (ctrl open_destroy_world) = false /\
  clickListenerAttached (ctrl open_destroy_world) = false /\
  pickerDestroyed (ctrl open_destroy_world) = true /\
  externalListeners (ctrl open_destroy_world) = [].
Proof.
  assert (Hw : fifo_reachable (open (initWorld None)))
    by (exists None; apply rtc_once, (fifo_step_call _ COpen)).
  assert (Hex : fifo_exec [AResume 0; AResume 1; AFinish 2; AResume 1;
                           AFinish 1; AResume 0]
                  (destroy (open (initWorld None))) = Some open_destroy_world)
    by (vm_compute; reflexivity).
  assert (Hdone : isOpen (ctrl (open (initWorld None))) = true ->
                  follow_task [AResume 0; AResume 1; AFinish 2; AResume 1;
                               AFinish 1; AResume 0]
                    (destroy (open (initWorld None)))
                    (length (tasks (open (initWorld None)))) = None)
    by (intros _; vm_compute; reflexivity).
  destruct (proj2 (destroy_complete (open (initWorld None)) open_destroy_world
                     [AResume 0; AResume 1; AFinish 2; AResume 1;
                      AFinish 1; AResume 0] Hw eq_refl Hex) Hdone)
    as (_ & H2 & H3 & H4 & H5 & _).
  split; [reflexivity|]. split; [exact (H2 eq_refl)|]. auto.
Defined.

Lemma getOptions_caller_then_defaults_witness :
  Options.getOptions (Some {["animate" := Options.JBool false]}) !! "animate"
    = Some (Options.JBool false) /\
  Options.getOptions (Some {["animate" := Options.JBool false]}) !! "maxRecents"
    = Some (Options.JNumber 50).
Proof.
  destruct (Options.getOptions_caller_then_defaults
              {["animate" := Options.JBool false]}) as (H1 & H2 & _).
  split.
  - apply H1; reflexivity.
  - apply H2; [simpl; tauto|reflexivity].
Defined.

Lemma arrow_keys_cycle_witness :
  1 < 3 /\
  Z.of_nat (VariantNavigation.handleArrowKey 3 "ArrowLeft" 1) =
    ((Z.of_nat 1 - 1 + Z.of_nat 3) mod Z.of_nat 3)%Z.
Proof.
  split; [lia|].
  apply (VariantNavigation.arrow_keys_cycle 3 1); lia.
Defined.

Lemma opened_world_reachable : reachable opened_world.
Proof.
  exists None. eapply rtc_l; [apply (step_call _ COpen)|].
  eapply rtc_subrel; [|exact opened_world_run]. intros x y; apply step_env.
Qed.

Lemma toggle_run_complete_witness :
  isOpen (ctrl opened_world) = true /\ popupAttached (ctrl opened_world) = true.
Proof.
  destruct (toggle_run_complete (initWorld None) opened_world (seq_init None)
              opened_world_run eq_refl) as (H1 & H2 & _).
  split; [exact H1|exact H2].
Defined.

Lemma browser_steps_keep_isOpen_witness :
  isOpen (ctrl opened_world) = isOpen (ctrl (open (initWorld None))).
Proof.
  exact (browser_steps_keep_isOpen (open (initWorld None)) opened_world
           opened_world_run).
Defined.

Lemma only_picker_open_emitted_witness :
  Forall (fun e => e = "picker:open"%string) (emitted (ctrl opened_world)).
Proof. exact (only_picker_open_emitted opened_world opened_world_reachable). Defined.

Lemma teardown_is_permanent_witness :
  clickListenerAttached (ctrl destroyed_world) = false /\
  pickerDestroyed (ctrl destroyed_world) = true /\
  clickListenerAttached (ctrl (open destroyed_world)) = false.
Proof.
  assert (H1 : clickListenerAttached (ctrl destroyed_world) = false)
    by (vm_compute; reflexivity).
  assert (H2 : pickerDestroyed (ctrl destroyed_world) = true)
    by (vm_compute; reflexivity).
  split; [exact H1|]. split; [exact H2|].
  exact (proj1 (teardown_is_permanent destroyed_world (open destroyed_world)
                  (rtc_once _ _ (step_call destroyed_world COpen)) H1 H2)).
Defined.

Lemma seq_popup_matches_isOpen_witness :
  popupAttached (ctrl opened_world) = isOpen (ctrl opened_world).
Proof.
  exact (proj1 (proj2 (seq_popup_matches_isOpen opened_world opened_world_seq))).
Defined.

Lemma getOptions_shared_defaults_witness :
  Options.getOptions (Some {["theme" := Options.JObject "darkTheme"]})
    !! "renderer" = Some (Options.JObject "NativeRenderer") /\
  Options.getOptions (Some {["animate" := Options.JBool false]}) !! "theme"
    = Some (Options.JObject "lightTheme").
Proof.
  set (o1 := {["theme" := Options.JObject "darkTheme"]} : Options.JsObject).
  set (o2 := {["animate" := Options.JBool false]} : Options.JsObject).
  assert (Hr : o1 !! "renderer"%string = None) by (vm_compute; reflexivity).
  assert (Ht : o2 !! "theme"%string = None) by (vm_compute; reflexivity).
  split.
  - exact (proj1 (Options.getOptions_shared_defaults o1 o2) Hr).
  - exact (proj1 (proj2 (proj2 (Options.getOptions_shared_defaults o2 o1))) Ht).
Defined.
